(** * bindecoder: the generic binary decoding engine

    A model of [src/bindecoder/decoder.py] (the byte cursor [Decoder], the
    scoped sub-reader [Decoder.substream], the sinks [Viewer],
    [PlainViewer] and [DataViewer]) and of the QuickTime driver
    [qtdecode.py] (the record loop [atoms]/[atom] and the blob renderer
    [hexdump], which [flvdecode.py] repeats verbatim and [jpgdecode.py]
    with [vset] in place of [putv]).

    Python integers are [Z], byte strings are [list Byte.byte], text is
    [string].  Methods that mutate [self] are functions from the state
    before to an outcome and the state after. *)

From Stdlib Require Import ZArith Lia Strings.Byte String Ascii.
From stdpp Require Import base numbers list strings pretty.

Local Open Scope Z_scope.

(** ** Python values and exceptions *)

(** The exception classes the modelled code raises.  [EOFError] is the
    specification's [EndOfData], [KeyError] its [DuplicateKeyError] and
    [IndexError] its [OutOfSequenceError]. *)
Inductive exn :=
| EOFError
| ValueError
| OSError
| KeyError
| IndexError
| StructError
| AssertionError
| AttributeError
| TypeError
| NotImplementedError.

(** Width of an IEEE float as [struct] reads it: ['f'] or ['d']. *)
Inductive float_fmt := Binary32 | Binary64.

(** The scalar values that flow through a driver.  A float is kept as its
    bit pattern: no claim depends on its numeric value. *)
Inductive value :=
| VNone
| VBool (b : bool)
| VInt (i : Z)
| VStr (s : string)
| VBytes (data : list byte)
| VFloat (fmt : float_fmt) (bits : Z).

(** A key of a sink container: drivers pass a [str] or an [int]. *)
Inductive name :=
| NInt (i : Z)
| NStr (s : string).

Inductive Outcome :=
| Normal (v : value)
| Returned (v : value)
| Raised (e : exn).

(** Python's [bool(v)]. *)
Definition truthy (v : value) : bool :=
  match v with
  | VNone => false
  | VBool b => b
  | VInt i => negb (i =? 0)
  | VStr s => negb (String.eqb s "")
  | VBytes data => match data with [] => false | _ => true end
  | VFloat Binary32 bits => negb (bits mod 2 ^ 31 =? 0)
  | VFloat Binary64 bits => negb (bits mod 2 ^ 63 =? 0)
  end.

(** [if name:] in [Decoder.scalar]. *)
Definition name_truthy (n : option name) : bool :=
  match n with
  | None => false
  | Some (NInt i) => negb (i =? 0)
  | Some (NStr s) => negb (String.eqb s "")
  end.

Definition exn_eqb (a b : exn) : bool :=
  match a, b with
  | EOFError, EOFError | ValueError, ValueError | OSError, OSError
  | KeyError, KeyError | IndexError, IndexError | StructError, StructError
  | AssertionError, AssertionError | AttributeError, AttributeError
  | TypeError, TypeError
  | NotImplementedError, NotImplementedError => true
  | _, _ => false
  end.

Definition name_eqb (a b : name) : bool :=
  match a, b with
  | NInt i, NInt j => i =? j
  | NStr s, NStr t => String.eqb s t
  | _, _ => false
  end.

(** ** Byte sources *)

(** What [Decoder] is given as [stream]: an open binary file, or the
    [BytesIO] that [substream] builds. *)
Inductive stream_kind := FileStream | BytesIOStream.

(** A byte source: its whole content and the offset of the next byte
    ([tell()]).  [consumed] is a ghost counter, the running total of the
    lengths of the byte strings [read] has handed out; nothing the code
    computes depends on it. *)
Record Stream := mkStream {
  kind : stream_kind;
  content : list byte;
  offset : nat;
  consumed : nat
}.

Definition BytesIO (data : list byte) : Stream :=
  mkStream BytesIOStream data 0 0.

Definition open_file (data : list byte) : Stream :=
  mkStream FileStream data 0 0.

(** The bytes from the current offset to the end of the source. *)
Definition remaining (s : Stream) : list byte := drop (offset s) (content s).

Definition available (s : Stream) : Z := Z.of_nat (length (remaining s)).

Definition stream_take (data : list byte) (s : Stream) : Stream :=
  mkStream (kind s) (content s)
           (offset s + length data)%nat (consumed s + length data)%nat.

(** [stream.read()] and [stream.read(size)].  A negative size reads to the
    end, except that a buffered file refuses sizes below [-1]. *)
Definition stream_read (size : option Z) (s : Stream) : (exn + list byte) * Stream :=
  match size with
  | None => (inr (remaining s), stream_take (remaining s) s)
  | Some n =>
      if n <? 0 then
        match kind s with
        | FileStream =>
            if n <? -1 then (inl ValueError, s)
            else (inr (remaining s), stream_take (remaining s) s)
        | BytesIOStream => (inr (remaining s), stream_take (remaining s) s)
        end
      else
        let data := take (Z.to_nat n) (remaining s) in
        (inr data, stream_take data s)
  end.

(** [stream.seek(position)]: a negative position is refused. *)
Definition stream_seek (position : Z) (s : Stream) : (exn + unit) * Stream :=
  if position <? 0 then
    (inl (match kind s with FileStream => OSError | BytesIOStream => ValueError end), s)
  else
    (inr tt, mkStream (kind s) (content s) (Z.to_nat position) (consumed s)).

(** ** [struct.unpack] *)

Inductive endian := BigEndian | LittleEndian.

(** The [struct] format characters the typed readers use. *)
Inductive desc := Fb | FB | Fh | FH | Fi | FI | Fq | FQ | Ff | Fd.

Definition calcsize (c : desc) : nat :=
  match c with
  | Fb | FB => 1
  | Fh | FH => 2
  | Fi | FI | Ff => 4
  | Fq | FQ | Fd => 8
  end%nat.

(** The unsigned integer a byte string spells, least significant first. *)
Fixpoint le_unsigned (data : list byte) : Z :=
  match data with
  | [] => 0
  | b :: rest => Z.of_N (Byte.to_N b) + 256 * le_unsigned rest
  end.

Definition unsigned (e : endian) (data : list byte) : Z :=
  match e with
  | LittleEndian => le_unsigned data
  | BigEndian => le_unsigned (rev data)
  end.

Definition signed (e : endian) (data : list byte) : Z :=
  let u := unsigned e data in
  let w := 8 * Z.of_nat (length data) in
  if u <? 2 ^ (w - 1) then u else u - 2 ^ w.

Definition struct_unpack (e : endian) (c : desc) (data : list byte) : exn + value :=
  if negb (length data =? calcsize c)%nat then inl StructError
  else inr (match c with
            | Fb | Fh | Fi | Fq => VInt (signed e data)
            | FB | FH | FI | FQ => VInt (unsigned e data)
            | Ff => VFloat Binary32 (unsigned e data)
            | Fd => VFloat Binary64 (unsigned e data)
            end).

(** ** The sink interface [Viewer] *)

(** The five methods every sink has.  Each returns the exception it raised,
    if any, and the sink's state afterwards. *)
Class ViewerOps (V : Type) := {
  v_enter_map : name -> V -> option exn * V;
  v_enter_array : name -> V -> option exn * V;
  v_exit : V -> option exn * V;
  v_set : name -> value -> V -> option exn * V;
  v_blob : name -> list byte -> V -> option exn * V
}.

(** ** [PlainViewer]: the text sink *)

Module PlainViewer.

(** [level] is the indent level; [out] is the text [print] has written,
    one entry per line. *)
Record t := mk { level : Z; out : list string }.

(** [PlainViewer()] *)
Definition init : t := mk 0 [].

(** ['%s' % name] *)
Definition str (n : name) : string :=
  match n with
  | NInt i => pretty i
  | NStr s => s
  end.

Definition hex_digit (n : N) : string :=
  String (nth (N.to_nat n) (list_ascii_of_string "0123456789abcdef") "0"%char) "".

(** ['%02x' % b] *)
Definition hex2 (b : byte) : string :=
  (hex_digit (Byte.to_N b / 16) ++ hex_digit (Byte.to_N b mod 16))%string.

(** ['  ' * level]: empty when the level is not positive. *)
Definition indent (level : Z) : string :=
  String.concat "" (replicate (Z.to_nat level) "  "%string).

Definition show (text : string) (st : t) : t :=
  mk (level st) (out st ++ [(indent (level st) ++ text)%string]).

Definition enter (n : name) (st : t) : t :=
  let st1 := show (str n ++ ":") st in
  mk (level st1 + 1) (out st1).

Definition enter_map := enter.
Definition enter_array := enter.

Definition exit (st : t) : t := mk (level st - 1) (out st).

Section Repr.
(** Python's builtin [repr], which ['%r'] applies to the value. *)
Variable repr : value -> string.

Definition set (n : name) (v : value) (st : t) : t :=
  show (str n ++ " = " ++ repr v) st.

Definition blob (n : name) (data : list byte) (st : t) : t :=
  let hdata := String.concat " " (map hex2 (take 16 data)) in
  let hdata := if (16 <? length data)%nat then (hdata ++ "...")%string else hdata in
  show (str n ++ "[" ++ pretty (Z.of_nat (length data)) ++ "]: " ++ hdata) st.

Definition ops : ViewerOps t := {|
  v_enter_map n st := (None, enter_map n st);
  v_enter_array n st := (None, enter_array n st);
  v_exit st := (None, exit st);
  v_set n v st := (None, set n v st);
  v_blob n data st := (None, blob n data st)
|}.
End Repr.

End PlainViewer.

(** ** [DataViewer]: the tree sink *)

Module DataViewer.

(** What a slot of a container holds: a scalar, or a reference to a
    nested container.  [self.cur] and the entry of the parent container
    are the same Python object, so containers live in a store and are
    named by their address. *)
Inductive dval :=
| DVal (v : value)
| DRef (a : nat).

(** A [dict] keeps its items in insertion order; a [list] is a list. *)
Inductive obj :=
| ODict (items : list (name * dval))
| OList (items : list dval).

(** [stack] has the most recently pushed container first. *)
Record t := mk { heap : list obj; stack : list nat; cur : nat }.

(** [DataViewer()]: an empty stack and a fresh [dict] as [cur]. *)
Definition init : t := mk [ODict []] [] 0%nat.

(** [name in d] *)
Definition has_key (n : name) (items : list (name * dval)) : bool :=
  existsb (fun kv => name_eqb n (fst kv)) items.

(** [name != len(l)]: a [str] never equals an [int]. *)
Definition index_differs (n : name) (len : nat) : bool :=
  match n with
  | NInt i => negb (i =? Z.of_nat len)
  | NStr _ => true
  end.

(** [set]: the store cell of [cur] is always allocated (see
    [DataViewer_wf]); the last case is there for totality only. *)
Definition set (n : name) (v : dval) (st : t) : option exn * t :=
  match heap st !! cur st with
  | Some (OList l) =>
    if index_differs n (length l) then (Some IndexError, st)
    else (None, mk (<[cur st := OList (l ++ [v])]> (heap st)) (stack st) (cur st))
  | Some (ODict d) =>
    if has_key n d then (Some KeyError, st)
    else (None, mk (<[cur st := ODict (d ++ [(n, v)])]> (heap st)) (stack st) (cur st))
  | None => (None, st)
  end.

Definition blob (n : name) (data : list byte) (st : t) : option exn * t :=
  set n (DVal (VBytes data)) st.

(** [enter_map] and [enter_array]: allocate [new], attach it with [set]
    (which may raise, and then [new] is dropped), push [cur], and make
    [new] current. *)
Definition enter (new : obj) (n : name) (st : t) : option exn * t :=
  let a := length (heap st) in
  match set n (DRef a) (mk (heap st ++ [new]) (stack st) (cur st)) with
  | (Some e, _) => (Some e, st)
  | (None, st1) => (None, mk (heap st1) (cur st1 :: stack st1) a)
  end.

Definition enter_map := enter (ODict []).
Definition enter_array := enter (OList []).

(** [self.cur = self.stack.pop()] *)
Definition exit (st : t) : option exn * t :=
  match stack st with
  | [] => (Some IndexError, st)
  | top :: rest => (None, mk (heap st) rest top)
  end.

(** [result()] is [self.cur]: an address, read in the final store. *)
Definition result (st : t) : nat := cur st.

Definition ops : ViewerOps t := {|
  v_enter_map := enter_map;
  v_enter_array := enter_array;
  v_exit := exit;
  v_set n v := set n (DVal v);
  v_blob := blob
  |}.

Definition wf (st : t) : Prop :=
  (cur st < length (heap st))%nat /\ Forall (fun a => (a < length (heap st))%nat) (stack st).

End DataViewer.

(** ** A recording sink *)

(** A sink that forwards every call to another sink and notes it, with
    whether the call returned ([true]) or raised ([false]).  It is the
    observer the scope-pairing property is stated for. *)
Module Recorder.

Inductive call :=
  | CEnterMap (n : name)
  | CEnterArray (n : name)
  | CExit
  | CSet (n : name) (v : value)
  | CBlob (n : name) (data : list byte).

Record t (V : Type) := mk { inner : V; calls : list (call * bool) }.
Arguments mk {V}.
Arguments inner {V}.
Arguments calls {V}.

Definition note {V} (c : call) (r : option exn * V) (st : t V) : option exn * t V :=
  (fst r, mk (snd r) (calls st ++ [(c, match fst r with None => true | Some _ => false end)])).

Definition ops {V} {ops : ViewerOps V} : ViewerOps (t V) := {|
  v_enter_map n st := note (CEnterMap n) (v_enter_map n (inner st)) st;
  v_enter_array n st := note (CEnterArray n) (v_enter_array n (inner st)) st;
  v_exit st := note CExit (v_exit (inner st)) st;
  v_set n v st := note (CSet n v) (v_set n v (inner st)) st;
  v_blob n data st := note (CBlob n data) (v_blob n data (inner st)) st
  |}.

Definition is_enter (c : call) : bool :=
  match c with CEnterMap _ | CEnterArray _ => true | _ => false end.

Definition is_exit (c : call) : bool :=
  match c with CExit => true | _ => false end.

(** Calls to [enter_map] or [enter_array], whether they returned or not. *)
Definition enter_calls (l : list (call * bool)) : nat :=
  length (List.filter (fun cb => is_enter (fst cb)) l).

(** Calls to [enter_map] or [enter_array] that returned. *)
Definition entered (l : list (call * bool)) : nat :=
  length (List.filter (fun cb => is_enter (fst cb) && snd cb) l).

Definition exit_calls (l : list (call * bool)) : nat :=
  length (List.filter (fun cb => is_exit (fst cb)) l).

End Recorder.

(** ** [Decoder]: the byte cursor *)

(** [stream_stack] has the most recently pushed pair first. *)
Record Decoder := mkDecoder {
  stream : Stream;
  pos : Z;
  end_ : endian;
  stream_stack : list (Stream * Z)
}.

(** [Decoder.__init__], without the [view] (see [World]). *)
Definition Decoder_init (s : Stream) (big_endian : bool) : Decoder :=
  mkDecoder s 0 (if big_endian then BigEndian else LittleEndian) [].

Definition with_stream (s : Stream) (d : Decoder) : Decoder :=
  mkDecoder s (pos d) (end_ d) (stream_stack d).

(** [Decoder.read]: when the source returns fewer bytes than asked for,
    [EOFError] is raised after the source has handed them out and before
    [pos] is touched. *)
Definition read (size : option Z) (d : Decoder) : (exn + list byte) * Decoder :=
  match stream_read size (stream d) with
  | (inl e, s') => (inl e, with_stream s' d)
  | (inr data, s') =>
      let short := match size with
                   | None => false
                   | Some n => Z.of_nat (length data) <? n
                   end in
      if short then (inl EOFError, with_stream s' d)
      else (inr data,
            mkDecoder s' (pos d + Z.of_nat (length data)) (end_ d) (stream_stack d))
  end.

(** [Decoder.seek] *)
Definition seek (position : Z) (d : Decoder) : (exn + unit) * Decoder :=
  match stream_seek position (stream d) with
  | (inl e, s') => (inl e, with_stream s' d)
  | (inr _, s') => (inr tt, mkDecoder s' position (end_ d) (stream_stack d))
  end.

(** The first three lines of [Decoder.substream] after the read: build the
    [BytesIO], push the current pair and switch to the new cursor. *)
Definition substream_enter (data : list byte) (d : Decoder) : Decoder :=
  mkDecoder (BytesIO data) 0 (end_ d) ((stream d, pos d) :: stream_stack d).

(** The [finally] of [Decoder.substream]:
    [self.stream, self.pos = self.stream_stack.pop()]. *)
Definition substream_exit (d : Decoder) : option exn * Decoder :=
  match stream_stack d with
  | [] => (Some IndexError, d)
  | (s, p) :: rest => (None, mkDecoder s p (end_ d) rest)
  end.

(** A decoder together with the sink it writes to ([self.view]). *)
Record World (V : Type) := mkWorld { dec : Decoder; view : V }.
Arguments mkWorld {V}.
Arguments dec {V}.
Arguments view {V}.

(** What running a piece of driver code from a state gives: [None] when it
    has not finished within the bound on the depth of the run. *)
Definition M (V : Type) : Type := World V -> option (Outcome * World V).

(** A [finally] clause: its own exception replaces the outcome of the
    block it closes. *)
Definition finally (o : Outcome) (e : option exn) : Outcome :=
  match e with
  | Some e' => Raised e'
  | None => o
  end.

Section Engine.
Context {V : Type} {ops : ViewerOps V}.

(** [Decoder.vset] (and the drivers' [putv]) *)
Definition vset (n : name) (v : value) (w : World V) : option exn * World V :=
  let (e, view') := v_set n v (view w) in (e, mkWorld (dec w) view').

(** [Decoder.scalar] *)
Definition scalar (n : option name) (size : Z) (c : desc) (w : World V)
  : (exn + value) * World V :=
  match read (Some size) (dec w) with
  | (inl e, d') => (inl e, mkWorld d' (view w))
  | (inr data, d') =>
      match struct_unpack (end_ d') c data with
      | inl e => (inl e, mkWorld d' (view w))
      | inr v =>
          match n with
          | Some n' =>
              if name_truthy n then
                match vset n' v (mkWorld d' (view w)) with
                | (Some e, w') => (inl e, w')
                | (None, w') => (inr v, w')
                end
              else (inr v, mkWorld d' (view w))
          | None => (inr v, mkWorld d' (view w))
          end
      end
  end.

Definition i1 n := scalar n 1 Fb.
Definition u1 n := scalar n 1 FB.
Definition i2 n := scalar n 2 Fh.
Definition u2 n := scalar n 2 FH.
Definition i4 n := scalar n 4 Fi.
Definition u4 n := scalar n 4 FI.
Definition i8 n := scalar n 8 Fq.
Definition u8 n := scalar n 8 FQ.
Definition f4 n := scalar n 4 Ff.
Definition f8 n := scalar n 8 Fd.

(** [with self.substream(size): body] *)
Definition substream (size : Z) (body : M V) : M V := fun w =>
  match read (Some size) (dec w) with
  | (inl e, d') => Some (Raised e, mkWorld d' (view w))
  | (inr data, d') =>
      match body (mkWorld (substream_enter data d') (view w)) with
      | None => None
      | Some (o, w') =>
          let (e, d'') := substream_exit (dec w') in
          Some (finally o e, mkWorld d'' (view w'))
      end
  end.

(** [with self.endian(big): body] *)
Definition endian_scope (big : bool) (body : M V) : M V := fun w =>
  let old_end := end_ (dec w) in
  let d := dec w in
  let d1 := mkDecoder (stream d) (pos d) (if big then BigEndian else LittleEndian)
                      (stream_stack d) in
  match body (mkWorld d1 (view w)) with
  | None => None
  | Some (o, w') =>
      let d' := dec w' in
      Some (o, mkWorld (mkDecoder (stream d') (pos d') old_end (stream_stack d')) (view w'))
  end.

(** [Viewer.map] and [Viewer.array]: the enter call is made before the
    [try], so when it raises no [exit] follows. *)
Definition scoped (enter : name -> V -> option exn * V) (n : name) (body : M V) : M V :=
  fun w =>
  match enter n (view w) with
  | (Some e, view1) => Some (Raised e, mkWorld (dec w) view1)
  | (None, view1) =>
      match body (mkWorld (dec w) view1) with
      | None => None
      | Some (o, w') =>
          let (e, view2) := v_exit (view w') in
          Some (finally o e, mkWorld (dec w') view2)
      end
  end.

Definition Viewer_map : name -> M V -> M V := scoped v_enter_map.
Definition Viewer_array : name -> M V -> M V := scoped v_enter_array.

End Engine.

(** ** Driver code *)

(** The scoped constructs a driver opens with [with]. *)
Inductive scope :=
| Substream (size : Z)
| Endian (big : bool)
| ViewMap (n : name)
| ViewArray (n : name).

(** The code of a driver method, built from the engine's operations.  A
    method reaches the cursor and the sink only through these, and its
    control flow is Python's: sequencing, [return], [raise], [try] /
    [except], [while], [for], [with] and calls of methods of the driver
    class by name. *)
Inductive prog :=
| Ret (v : value)                          (* the block ends with value v *)
| Return (v : value)                       (* return v *)
| Raise (e : exn)                          (* raise e *)
| Bind (p : prog) (k : value -> prog)      (* x = p; k x *)
| Read (size : option Z)                   (* self.read(size) *)
| Scalar (n : option name) (size : Z) (c : desc)
| Seek (position : Z)                      (* self.seek(position) *)
| Pos                                      (* self.pos *)
| VSet (n : name) (v : value)              (* self.view.set(n, v) *)
| VBlob (n : name) (data : list byte)      (* self.view.blob(n, data) *)
| With (s : scope) (body : prog)           (* with s: body *)
| Try (body : prog) (catches : exn -> bool) (handler : prog)
| While (cond : prog) (body : prog)        (* while cond: body *)
| For (xs : list value) (body : value -> prog)
| HasAttr (f : string)                     (* getattr(self, f, None) is not None *)
| Call (f : string) (args : list value).   (* self.f( *args ) *)

(** The methods of a driver class, by name. *)
Definition class := string -> option (list value -> prog).

Definition lift {V A} (f : A -> value) (r : (exn + A) * World V) : option (Outcome * World V) :=
  match r with
  | (inl e, w) => Some (Raised e, w)
  | (inr a, w) => Some (Normal (f a), w)
  end.

Definition lift_unit {V} (r : option exn * World V) : option (Outcome * World V) :=
  match r with
  | (Some e, w) => Some (Raised e, w)
  | (None, w) => Some (Normal VNone, w)
  end.

Section Run.
Context {V : Type} {ops : ViewerOps V}.
Variable cls : class.

Definition with_scope (s : scope) : M V -> M V :=
  match s with
  | Substream size => substream size
  | Endian big => endian_scope big
  | ViewMap n => Viewer_map n
  | ViewArray n => Viewer_array n
  end.

(** [run fuel p w]: the outcome of [p] from [w] and the state it leaves, or
    [None] when the run is deeper than [fuel]. *)
Fixpoint run (fuel : nat) (p : prog) (w : World V) : option (Outcome * World V) :=
  match fuel with
  | O => None
  | S fuel' =>
      match p with
      | Ret v => Some (Normal v, w)
      | Return v => Some (Returned v, w)
      | Raise e => Some (Raised e, w)
      | Bind p k =>
          match run fuel' p w with
          | Some (Normal v, w1) => run fuel' (k v) w1
          | r => r
          end
      | Read size =>
          let (r, d') := read size (dec w) in lift VBytes (r, mkWorld d' (view w))
      | Scalar n size c => lift id (scalar n size c w)
      | Seek position =>
          let (r, d') := seek position (dec w) in
          lift (fun _ => VNone) (r, mkWorld d' (view w))
      | Pos => Some (Normal (VInt (pos (dec w))), w)
      | VSet n v => lift_unit (vset n v w)
      | VBlob n data =>
          let (e, view') := v_blob n data (view w) in lift_unit (e, mkWorld (dec w) view')
      | With s body => with_scope s (run fuel' body) w
      | Try body catches handler =>
          match run fuel' body w with
          | Some (Raised e, w1) =>
              if catches e then run fuel' handler w1 else Some (Raised e, w1)
          | r => r
          end
      | While cond body =>
          match run fuel' cond w with
          | Some (Normal c, w1) =>
              if truthy c then
                match run fuel' body w1 with
                | Some (Normal _, w2) => run fuel' (While cond body) w2
                | r => r
                end
              else Some (Normal VNone, w1)
          | r => r
          end
      | For xs body =>
          match xs with
          | [] => Some (Normal VNone, w)
          | x :: xs' =>
              match run fuel' (body x) w with
              | Some (Normal _, w1) => run fuel' (For xs' body) w1
              | r => r
              end
          end
      | HasAttr f => Some (Normal (VBool (bool_decide (is_Some (cls f)))), w)
      | Call f args =>
          match cls f with
          | None => Some (Raised AttributeError, w)
          | Some m =>
              match run fuel' (m args) w with
              | Some (Normal _, w1) => Some (Normal VNone, w1)
              | Some (Returned v, w1) => Some (Normal v, w1)
              | r => r
              end
          end
      end
  end.

(** A whole decode: build the decoder over the input and the sink, call
    the driver's [run]. *)
Definition decode (fuel : nat) (input : list byte) (big_endian : bool) (sink : V)
  : option (Outcome * World V) :=
  run fuel (Call "run" []) (mkWorld (Decoder_init (open_file input) big_endian) sink).

End Run.

(** ** Text helpers of the drivers *)

Definition int_of (v : value) : Z :=
  match v with VInt i => i | _ => 0 end.

Definition str_of (v : value) : string :=
  match v with VStr s => s | _ => EmptyString end.

(** [b.decode('iso-8859-1')]: every byte is the character of its code. *)
Definition decode_latin1 (data : list byte) : string :=
  string_of_list_ascii (map ascii_of_byte data).

(** [s[n:]] for [n >= 0] *)
Fixpoint string_drop (n : nat) (s : string) : string :=
  match n, s with
  | O, _ => s
  | S n', String _ rest => string_drop n' rest
  | S _, EmptyString => EmptyString
  end.

(** [line.partition(sep)] without its middle component: the text before
    the first [sep] and the text after it; all of [line] and the empty
    string when [sep] does not occur. *)
Fixpoint partition (sep line : string) : string * string :=
  if String.prefix sep line then (EmptyString, string_drop (String.length sep) line)
  else match line with
       | EmptyString => (EmptyString, EmptyString)
       | String c rest => let (h, t) := partition sep rest in (String c h, t)
       end.

(** [s.replace(' ', '0')] *)
Definition replace_space_zero (s : string) : string :=
  string_of_list_ascii
    (map (fun c => if Ascii.eqb c " " then "0"%char else c) (list_ascii_of_string s)).

(** [data[:limit]], Python's slice: a negative limit counts from the end. *)
Definition slice_to (limit : Z) (data : list byte) : list byte :=
  if limit <? 0 then take (Z.to_nat (Z.of_nat (length data) + limit)) data
  else take (Z.to_nat limit) data.

(** ** [QtDecoder]: the QuickTime driver *)

Module QtDecoder.
Section Methods.

(** [HexDumper(data).iter_lines()], from the module [hexdumper], which is
    not part of the repository: the lines of the hex dump of [data]. *)
Variable iter_lines : list byte -> list string.

(** The field-layout methods ([do_tkhd], [do_hdlr], [do_mdhd], ...,
    [matrix], [v4], [fix32]): format knowledge outside the engine. *)
Variable layout : class.

Definition U4 := Scalar None 4 FI.

(** [putv(name, value)] *)
Definition putv (args : list value) : prog :=
  match args with
  | [VStr s; v] => VSet (NStr s) v
  | [VInt i; v] => VSet (NInt i) v
  | _ => Raise TypeError
  end.

(** [s4()]: read a 4-byte string (fourcc) *)
Definition s4 : prog :=
  Bind (Read (Some 4)) (fun b4 =>
  Return (VStr (decode_latin1 (match b4 with VBytes d => d | _ => [] end)))).

(** [hexdump(data, limit)] *)
Definition hexdump (data : list byte) (limit : Z) : prog :=
  Bind (For (map VStr (iter_lines (slice_to limit data))) (fun line =>
          let (offset, dump) := partition ": " (str_of line) in
          Call "putv" [VStr (replace_space_zero (string_drop 1 offset)); VStr dump]))
       (fun _ =>
          if limit <? Z.of_nat (length data)
          then Call "putv" [VStr "dump_size"; VInt (Z.of_nat (length data))]
          else Ret VNone).

(** [atom()] *)
Definition atom : prog :=
  Bind (Try U4 (fun e => exn_eqb e EOFError) (Return (VBool false))) (fun size =>
  if int_of size =? 0 then Return (VBool false) else
  Bind (Call "s4" []) (fun atype =>
  Bind (With (Substream (int_of size - 8))
         (With (ViewMap (NStr ("'" ++ str_of atype ++ "'")))
            (Bind (Call "putv" [VStr "_size"; size]) (fun _ =>
             Bind (HasAttr ("do_" ++ str_of atype)) (fun method =>
             Bind (if truthy method then Call ("do_" ++ str_of atype) [] else Ret VNone)
                  (fun _ =>
             Bind (Read None) (fun rest =>
             if truthy rest
             then Call "hexdump" [rest]
             else Ret VNone)))))))
       (fun _ =>
  Return (VBool true)))).

(** [atoms()]: [while self.atom(): pass] *)
Definition atoms : prog := While (Call "atom" []) (Ret VNone).

(** [atom_data()] *)
Definition atom_data : prog :=
  Bind (Call "atom" []) (fun _ =>
  Bind (Read None) (fun data => Call "hexdump" [data])).

(** [run()] *)
Definition run : prog := Call "atoms" [].

(** The class: its own methods, then the field-layout ones. *)
Definition methods : class := fun f =>
  if String.eqb f "run" then Some (fun _ => run)
  else if String.eqb f "atoms" then Some (fun _ => atoms)
  else if String.eqb f "atom" then Some (fun _ => atom)
  else if existsb (String.eqb f)
            ["do_moov"; "do_trak"; "do_mdia"; "do_minf"; "do_stbl"; "do_udta"]
       then Some (fun _ => atoms)
  else if String.eqb f "atom_data" then Some (fun _ => atom_data)
  else if String.eqb f "do_dinf" then Some (fun _ => atom_data)
  else if String.eqb f "hexdump"
       then Some (fun args =>
                    match args with
                    | [VBytes data] => hexdump data 256
                    | [VBytes data; VInt limit] => hexdump data limit
                    | _ => Raise TypeError
                    end)
  else if String.eqb f "putv" then Some putv
  else if String.eqb f "s4" then Some (fun _ => s4)
  else layout f.

End Methods.
End QtDecoder.

(** ** Notions the properties are stated with *)

(** The position counter and the offset of the source agree. *)
Definition position_is_offset (d : Decoder) : Prop :=
  pos d = Z.of_nat (offset (stream d)).

(** The position counter is the number of bytes the source has handed out
    since it was created. *)
Definition position_is_consumed (d : Decoder) : Prop :=
  pos d = Z.of_nat (consumed (stream d)).

(** What every piece of driver code leaves as it found it: the stack of
    suspended cursors and the byte order. *)
Definition same_frame (d d' : Decoder) : Prop :=
  stream_stack d' = stream_stack d /\ end_ d' = end_ d.

Section Readers.
Context {V : Type} {ops : ViewerOps V}.

(** The ten typed readers, each with the number of bytes it asks for. *)
Definition typed_readers
  : list ((option name -> World V -> (exn + value) * World V) * Z) :=
  [(i1, 1); (u1, 1); (i2, 2); (u2, 2); (i4, 4); (u4, 4); (i8, 8); (u8, 8);
   (f4, 4); (f8, 8)].

(** A run of [p] from [w] ends with outcome [o] in state [w']. *)
Definition runs_to (cls : class) (p : prog) (w : World V) (o : Outcome) (w' : World V) : Prop :=
  exists fuel, run cls fuel p w = Some (o, w').

End Readers.

(** The recorder's notes grew by a run of calls in which every enter that
    returned has its exit. *)
Definition paired_since {V : Type} (v v' : Recorder.t V) : Prop :=
  exists l, Recorder.calls v' = Recorder.calls v ++ l
            /\ Recorder.entered l = Recorder.exit_calls l.

(** A sequence of [set] calls on the tree sink, stopping at the first that
    raises. *)
Fixpoint set_all (calls : list (name * DataViewer.dval)) (st : DataViewer.t)
  : option exn * DataViewer.t :=
  match calls with
  | [] => (None, st)
  | (n, v) :: rest =>
      match DataViewer.set n v st with
      | (Some e, st') => (Some e, st')
      | (None, st') => set_all rest st'
      end
  end.

(** The sequence of [view.set] calls a driver makes for a list of leaves,
    stopping at the first that raises. *)
Fixpoint set_leaves {V : Type} {ops : ViewerOps V}
    (leaves : list (name * value)) (w : World V) : option exn * World V :=
  match leaves with
  | [] => (None, w)
  | (n, v) :: rest =>
      match vset n v w with
      | (Some e, w') => (Some e, w')
      | (None, w') => set_leaves rest w'
      end
  end.

(** The leaf [hexdump] sets for one line of the dump: the name is the
    offset column without its first character and with spaces as zeros,
    the value is the text after [': ']. *)
Definition leaf_of_line (line : string) : name * value :=
  let (offset, dump) := partition ": " line in
  (NStr (replace_space_zero (string_drop 1 offset)), VStr dump).

(** All the leaves of one [hexdump(data, limit)], in order. *)
Definition hexdump_leaves (iter_lines : list byte -> list string)
    (data : list byte) (limit : Z) : list (name * value) :=
  map leaf_of_line (iter_lines (slice_to limit data))
  ++ (if limit <? Z.of_nat (length data)
      then [(NStr "dump_size", VInt (Z.of_nat (length data)))]
      else []).

(** The line the text sink prints for a leaf at an indent level. *)
Definition render_leaf (repr : value -> string) (level : Z) (leaf : name * value) : string :=
  (PlainViewer.indent level ++ PlainViewer.str (fst leaf) ++ " = " ++ repr (snd leaf))%string.

(** ** Notions for the further properties *)

(** A container of the tree sink after some more [set] calls: the same
    kind of container, with the old items as a prefix of the new ones. *)
Definition obj_extends (o o' : DataViewer.obj) : Prop :=
  match o, o' with
  | DataViewer.ODict a, DataViewer.ODict b => exists l, b = a ++ l
  | DataViewer.OList a, DataViewer.OList b => exists l, b = a ++ l
  | _, _ => False
  end.

(** Every container of the old store is still at its address, extended. *)
Definition heap_extends (h h' : list DataViewer.obj) : Prop :=
  forall a o, h !! a = Some o -> exists o', h' !! a = Some o' /\ obj_extends o o'.

(** Every [dict] of the store has pairwise distinct keys. *)
Definition keys_unique (h : list DataViewer.obj) : Prop :=
  Forall (fun o => match o with
                   | DataViewer.ODict d => NoDup (map fst d)
                   | DataViewer.OList _ => True
                   end) h.

(** What the tree sink keeps from a state [v] to a later state [v'], given
    that [v] refers only to containers of its store: [v'] does too, the
    current container and the stack of open containers are the same, the
    store only grew, and distinct keys stayed distinct. *)
Definition tree_kept (v v' : DataViewer.t) : Prop :=
  DataViewer.wf v ->
  DataViewer.wf v'
  /\ DataViewer.cur v' = DataViewer.cur v
  /\ DataViewer.stack v' = DataViewer.stack v
  /\ heap_extends (DataViewer.heap v) (DataViewer.heap v')
  /\ (keys_unique (DataViewer.heap v) -> keys_unique (DataViewer.heap v')).

(** What the caller sees of the way a method body ended. *)
Definition call_outcome (o : Outcome) : Outcome :=
  match o with
  | Normal _ => Normal VNone
  | Returned v => Normal v
  | Raised e => Raised e
  end.

(** ** [FLVDecoder]: the Flash Video driver *)

Module FLVDecoder.

(** [ui24()]: a 24-bit unsigned integer read as a byte and a 16-bit word. *)
Definition ui24 : prog :=
  Bind (Scalar None 1 FB) (fun hi =>
  Bind (Scalar None 2 FH) (fun lo =>
  Return (VInt (Z.lor (Z.shiftl (int_of hi) 16) (int_of lo))))).

End FLVDecoder.

(** ** Termination *)

(** The bytes the current source still holds. *)
Definition bytes_left {V} (w : World V) : nat := length (remaining (stream (dec w))).

(** The run of [p] from [w] ends: with enough fuel the interpreter gives an
    outcome and a final state. *)
Definition terminates {V} {ops : ViewerOps V} (cls : class) (p : prog) (w : World V) : Prop :=
  exists o w', runs_to cls p w o w'.

(** * Properties *)

(** ** The byte source *)

Lemma remaining_stream_take (s : Stream) :
  remaining (stream_take (remaining s) s) = [].
Proof.
  unfold remaining, stream_take; simpl.
  apply drop_ge. rewrite length_drop. lia.
Qed.

Lemma read_None (d : Decoder) :
  read None d =
  (inr (remaining (stream d)),
   mkDecoder (stream_take (remaining (stream d)) (stream d))
             (pos d + available (stream d)) (end_ d) (stream_stack d)).
Proof. reflexivity. Qed.

(** C10. [read()] without a size never raises: it returns every byte left
    in the active source (possibly none), advances [pos] by the number of
    bytes returned and leaves the source exhausted. *)
Theorem read_all_never_raises (d : Decoder) :
  exists d',
    read None d = (inr (remaining (stream d)), d')
    /\ pos d' = pos d + Z.of_nat (length (remaining (stream d)))
    /\ remaining (stream d') = []
    /\ stream_stack d' = stream_stack d
    /\ end_ d' = end_ d.
Proof.
  eexists. split; [apply read_None|].
  simpl. repeat split; auto using remaining_stream_take.
Qed.

Lemma length_take_remaining (n : Z) (s : Stream) :
  0 <= n ->
  Z.of_nat (length (take (Z.to_nat n) (remaining s))) = Z.min n (available s).
Proof.
  intros Hn. unfold available. rewrite length_take. lia.
Qed.

Lemma read_Some_short (n : Z) (d : Decoder) :
  0 <= n -> available (stream d) < n ->
  read (Some n) d =
  (inl EOFError,
   with_stream (stream_take (take (Z.to_nat n) (remaining (stream d))) (stream d)) d).
Proof.
  intros Hn Hlt. unfold read, stream_read.
  destruct (Z.ltb_spec n 0) as [|_]; [lia|].
  pose proof (length_take_remaining n (stream d) Hn) as Hlen.
  destruct (Z.ltb_spec (Z.of_nat (length (take (Z.to_nat n) (remaining (stream d))))) n);
    [reflexivity | lia].
Qed.

Lemma read_Some_enough (n : Z) (d : Decoder) :
  0 <= n -> n <= available (stream d) ->
  read (Some n) d =
  (inr (take (Z.to_nat n) (remaining (stream d))),
   mkDecoder (stream_take (take (Z.to_nat n) (remaining (stream d))) (stream d))
             (pos d + n) (end_ d) (stream_stack d))
  /\ Z.of_nat (length (take (Z.to_nat n) (remaining (stream d)))) = n.
Proof.
  intros Hn Hle. unfold read, stream_read.
  destruct (Z.ltb_spec n 0) as [|_]; [lia|].
  pose proof (length_take_remaining n (stream d) Hn) as Hlen.
  destruct (Z.ltb_spec (Z.of_nat (length (take (Z.to_nat n) (remaining (stream d))))) n);
    [lia|].
  split; [|lia]. do 3 f_equal. lia.
Qed.

Lemma read_stack (size : option Z) (d : Decoder) :
  stream_stack (snd (read size d)) = stream_stack d
  /\ end_ (snd (read size d)) = end_ d.
Proof.
  unfold read. destruct (stream_read size (stream d)) as [[e|data] s']; simpl; auto.
  destruct size as [n|]; [destruct (_ <? n)|]; simpl; auto.
Qed.

Section ReaderFacts.
Context {V : Type} {ops : ViewerOps V}.

Lemma scalar_short (n : option name) (size : Z) (c : desc) (w : World V) :
  0 <= size -> available (stream (dec w)) < size ->
  fst (scalar n size c w) = inl EOFError.
Proof.
  intros Hs Hlt. unfold scalar. now rewrite read_Some_short.
Qed.

Lemma scalar_enough (size : Z) (c : desc) (w : World V) :
  size = Z.of_nat (calcsize c) -> size <= available (stream (dec w)) ->
  exists v w',
    scalar None size c w = (inr v, w') /\ pos (dec w') = pos (dec w) + size
    /\ view w' = view w.
Proof.
  intros Hs Hle. unfold scalar.
  destruct (read_Some_enough size (dec w)) as [-> Hlen]; [lia|done|].
  unfold struct_unpack. simpl end_.
  assert (length (take (Z.to_nat size) (remaining (stream (dec w)))) = calcsize c) as ->
    by lia.
  rewrite Nat.eqb_refl. simpl. eauto.
Qed.

Lemma substream_short (size : Z) (body : M V) (w : World V) :
  0 <= size -> available (stream (dec w)) < size ->
  substream size body w
  = Some (Raised EOFError, mkWorld (snd (read (Some size) (dec w))) (view w)).
Proof.
  intros Hs Hlt. unfold substream. now rewrite read_Some_short.
Qed.

End ReaderFacts.

(** C2 (amended to sizes that are not negative).  For a requested size
    [n >= 0]: [read(n)] raises [EOFError] exactly when fewer than [n] bytes
    remain, and otherwise returns the next [n] bytes and advances [pos] by
    [n]; each of the ten typed readers raises [EOFError] when fewer bytes
    remain than its width and otherwise returns a value and advances [pos]
    by its width; and [substream(n)] raises [EOFError] when fewer than [n]
    bytes remain, whatever its body is, so the body is never run. *)
Theorem sized_read_contract {V : Type} {ops : ViewerOps V}
    (n : Z) (w : World V) (body : M V) :
  0 <= n ->
  (fst (read (Some n) (dec w)) = inl EOFError <-> available (stream (dec w)) < n)
  /\ (n <= available (stream (dec w)) ->
      exists data d',
        read (Some n) (dec w) = (inr data, d')
        /\ Z.of_nat (length data) = n
        /\ data = take (Z.to_nat n) (remaining (stream (dec w)))
        /\ pos d' = pos (dec w) + n)
  /\ Forall (fun rs =>
       (available (stream (dec w)) < snd rs ->
        forall nm, fst (fst rs nm w) = inl EOFError)
       /\ (snd rs <= available (stream (dec w)) ->
           exists v w', fst rs None w = (inr v, w')
                        /\ pos (dec w') = pos (dec w) + snd rs)) typed_readers
  /\ (available (stream (dec w)) < n ->
      substream n body w
      = Some (Raised EOFError, mkWorld (snd (read (Some n) (dec w))) (view w))).
Proof.
  intros Hn. repeat split.
  - intros Hraise. destruct (Z.lt_ge_cases (available (stream (dec w))) n) as [|Hge]; [done|].
    destruct (read_Some_enough n (dec w) Hn Hge) as [Heq _].
    rewrite Heq in Hraise. discriminate.
  - intros Hlt. now rewrite read_Some_short.
  - intros Hle. destruct (read_Some_enough n (dec w) Hn Hle) as [Heq Hlen].
    eauto 10.
  - unfold typed_readers.
    repeat (apply Forall_cons; split;
            [split; simpl;
             [intros Hlt nm; apply scalar_short; [lia|done]
             |intros Hle;
              edestruct (scalar_enough) as (v & w' & Hrun & Hpos & _);
              [| exact Hle | exists v, w'; split; [exact Hrun | exact Hpos]];
              reflexivity]|]).
    apply Forall_nil_2.
  - intros Hlt. now apply substream_short.
Qed.

Lemma sized_read_contract_witness :
  let w := mkWorld (Decoder_init (BytesIO [x61; x62; x63]) true) DataViewer.init in
  let body : M DataViewer.t := fun w' => Some (Normal VNone, w') in
  0 <= 2
  /\ (fst (read (Some 2) (dec w)) = inl EOFError <-> available (stream (dec w)) < 2)
  /\ (2 <= available (stream (dec w)) ->
      exists data d',
        read (Some 2) (dec w) = (inr data, d')
        /\ Z.of_nat (length data) = 2
        /\ data = take (Z.to_nat 2) (remaining (stream (dec w)))
        /\ pos d' = pos (dec w) + 2)
  /\ Forall (fun rs =>
       (available (stream (dec w)) < snd rs ->
        forall nm, fst (fst rs nm w) = inl EOFError)
       /\ (snd rs <= available (stream (dec w)) ->
           exists v w', fst rs None w = (inr v, w')
                        /\ pos (dec w') = pos (dec w) + snd rs))
       (typed_readers (ops := DataViewer.ops))
  /\ (available (stream (dec w)) < 2 ->
      substream 2 body w
      = Some (Raised EOFError, mkWorld (snd (read (Some 2) (dec w))) (view w))).
Proof.
  intros w body. split; [lia|].
  apply (sized_read_contract (ops := DataViewer.ops) 2 w body). lia.
Defined.

(** C2 as stated fails at a negative size: [read(-1)] on a source with
    three bytes left does not raise, returns three bytes and advances
    [pos] by three. *)
Lemma sized_read_negative_counterexample :
  let d := Decoder_init (BytesIO [x61; x62; x63]) true in
  read (Some (-1)) d
  = (inr [x61; x62; x63],
     mkDecoder (mkStream BytesIOStream [x61; x62; x63] 3 3) 3 BigEndian [])
  /\ ~ ((fst (read (Some (-1)) d) = inl EOFError <-> available (stream d) < -1)
        /\ (~ available (stream d) < -1 ->
            exists data d',
              read (Some (-1)) d = (inr data, d')
              /\ Z.of_nat (length data) = -1
              /\ pos d' = pos d + -1)).
Proof.
  split; [reflexivity|].
  intros [_ Hret]. destruct Hret as (data & d' & _ & Hlen & _).
  - vm_compute. discriminate.
  - lia.
Qed.

(** ** The tree sink *)

Lemma name_eqb_eq (a b : name) : name_eqb a b = true <-> a = b.
Proof.
  destruct a as [i|s], b as [j|t]; simpl; split; try discriminate.
  - intros ->%Z.eqb_eq. reflexivity.
  - intros [= ->]. apply Z.eqb_refl.
  - intros ->%String.eqb_eq. reflexivity.
  - intros [= ->]. apply String.eqb_refl.
Qed.

Lemma has_key_In (n : name) (d : list (name * DataViewer.dval)) :
  DataViewer.has_key n d = true <-> In n (map fst d).
Proof.
  unfold DataViewer.has_key. rewrite existsb_exists, in_map_iff. split.
  - intros ([k v] & Hin & Heq%name_eqb_eq). exists (k, v). simpl in *. auto.
  - intros ([k v] & Hk & Hin). exists (k, v). split; [done|]. now apply name_eqb_eq.
Qed.

Lemma index_differs_neq (n : name) (len : nat) :
  DataViewer.index_differs n len = true <-> n <> NInt (Z.of_nat len).
Proof.
  destruct n as [i|s]; simpl.
  - destruct (Z.eqb_spec i (Z.of_nat len)) as [->|Hne]; simpl; split; try done.
    intros _ [= Heq]. done.
  - split; done.
Qed.

Lemma set_dict_taken (st : DataViewer.t) d n v :
  DataViewer.heap st !! DataViewer.cur st = Some (DataViewer.ODict d) ->
  In n (map fst d) ->
  DataViewer.set n v st = (Some KeyError, st).
Proof.
  intros Hcur Hin%has_key_In. unfold DataViewer.set. now rewrite Hcur, Hin.
Qed.

Lemma set_dict_fresh (st : DataViewer.t) d n v :
  DataViewer.heap st !! DataViewer.cur st = Some (DataViewer.ODict d) ->
  ~ In n (map fst d) ->
  DataViewer.set n v st
  = (None, DataViewer.mk
             (<[DataViewer.cur st := DataViewer.ODict (d ++ [(n, v)])]> (DataViewer.heap st))
             (DataViewer.stack st) (DataViewer.cur st)).
Proof.
  intros Hcur Hnin. unfold DataViewer.set. rewrite Hcur.
  destruct (DataViewer.has_key n d) eqn:Hk; [|done].
  apply has_key_In in Hk. done.
Qed.

Lemma set_all_dict (calls : list (name * DataViewer.dval)) :
  forall (st st' : DataViewer.t) d,
    DataViewer.heap st !! DataViewer.cur st = Some (DataViewer.ODict d) ->
    NoDup (map fst d) ->
    set_all calls st = (None, st') ->
    NoDup (map fst (d ++ calls))
    /\ DataViewer.heap st' !! DataViewer.cur st' = Some (DataViewer.ODict (d ++ calls))
    /\ DataViewer.cur st' = DataViewer.cur st
    /\ DataViewer.stack st' = DataViewer.stack st.
Proof.
  induction calls as [|[n v] calls IH]; intros st st' d Hcur Hnd Hall; simpl in Hall.
  - injection Hall as <-. rewrite app_nil_r. auto.
  - destruct (DataViewer.has_key n d) eqn:Hk.
    + apply has_key_In in Hk as Hin.
      rewrite (set_dict_taken st d n v Hcur Hin) in Hall. discriminate.
    + assert (~ In n (map fst d)) as Hnin by (rewrite <- has_key_In, Hk; done).
      rewrite (set_dict_fresh st d n v Hcur Hnin) in Hall.
      apply (IH _ _ (d ++ [(n, v)])) in Hall; simpl.
      * rewrite <- app_assoc in Hall. simpl in Hall. exact Hall.
      * apply list_lookup_insert_eq. eapply lookup_lt_Some, Hcur.
      * rewrite map_app. simpl. apply NoDup_app. repeat split; [done| |apply NoDup_singleton].
        intros x Hx ->%list_elem_of_singleton. apply Hnin. now apply list_elem_of_In.
Qed.

Lemma set_heap_length (n : name) (v : DataViewer.dval) (st : DataViewer.t) :
  length (DataViewer.heap (snd (DataViewer.set n v st))) = length (DataViewer.heap st)
  /\ DataViewer.stack (snd (DataViewer.set n v st)) = DataViewer.stack st
  /\ DataViewer.cur (snd (DataViewer.set n v st)) = DataViewer.cur st.
Proof.
  unfold DataViewer.set.
  destruct (DataViewer.heap st !! DataViewer.cur st) as [[d|l]|]; simpl; auto.
  - destruct (DataViewer.has_key n d); simpl; auto using length_insert.
  - destruct (DataViewer.index_differs n (length l)); simpl; auto using length_insert.
Qed.

(** Every container the tree sink refers to is in its store: the sink is
    created that way and each of its methods keeps it so. *)
Lemma DataViewer_wf (st : DataViewer.t) (n : name) (v : DataViewer.dval) (new : DataViewer.obj) :
  DataViewer.wf DataViewer.init
  /\ (DataViewer.wf st ->
      DataViewer.wf (snd (DataViewer.set n v st))
      /\ DataViewer.wf (snd (DataViewer.enter new n st))
      /\ DataViewer.wf (snd (DataViewer.exit st))).
Proof.
  split; [split; simpl; [lia | constructor]|].
  intros [Hcur Hstack]. split; [|split].
  - destruct (set_heap_length n v st) as (Hlen & Hst & Hc).
    unfold DataViewer.wf. now rewrite Hlen, Hst, Hc.
  - unfold DataViewer.enter.
    pose proof (set_heap_length n (DataViewer.DRef (length (DataViewer.heap st)))
                  (DataViewer.mk (DataViewer.heap st ++ [new]) (DataViewer.stack st)
                                 (DataViewer.cur st))) as (Hlen & Hst & Hc).
    destruct (DataViewer.set _ _ _) as [[e|] st1]; simpl in *; [split; assumption|].
    rewrite length_app in Hlen. simpl in Hlen.
    unfold DataViewer.wf. simpl. rewrite Hlen, Hst, Hc. split; [lia|].
    constructor; [lia|]. eapply Forall_impl; [exact Hstack|]. simpl. intros. lia.
  - unfold DataViewer.exit. destruct (DataViewer.stack st) as [|top rest] eqn:Hs; simpl.
    + split; [assumption | now rewrite Hs].
    + inversion Hstack; subst. split; assumption.
Qed.

(** C4. In a map of the tree sink, a [set] whose name is already a key
    raises [KeyError] and leaves the sink as it was; a [set] with a new
    name appends the item; so the names of any sequence of [set] calls
    that all return within one map are pairwise distinct and distinct from
    the keys already there. *)
Theorem map_set_unique_names
    (st : DataViewer.t) (d : list (name * DataViewer.dval))
    (n : name) (v : DataViewer.dval) (calls : list (name * DataViewer.dval))
    (st' : DataViewer.t) :
  DataViewer.heap st !! DataViewer.cur st = Some (DataViewer.ODict d) ->
  (In n (map fst d) -> DataViewer.set n v st = (Some KeyError, st))
  /\ (~ In n (map fst d) ->
      DataViewer.set n v st
      = (None, DataViewer.mk
                 (<[DataViewer.cur st := DataViewer.ODict (d ++ [(n, v)])]>
                    (DataViewer.heap st))
                 (DataViewer.stack st) (DataViewer.cur st)))
  /\ (NoDup (map fst d) -> set_all calls st = (None, st') ->
      NoDup (map fst (d ++ calls))
      /\ DataViewer.heap st' !! DataViewer.cur st' = Some (DataViewer.ODict (d ++ calls))).
Proof.
  intros Hcur. repeat split.
  - now apply set_dict_taken.
  - now apply set_dict_fresh.
  - eapply set_all_dict; eauto.
  - eapply set_all_dict; eauto.
Qed.

Lemma map_set_unique_names_witness :
  let st := DataViewer.mk [DataViewer.ODict [(NStr "a", DataViewer.DVal (VInt 1))]] [] 0%nat in
  let d := [(NStr "a", DataViewer.DVal (VInt 1))] in
  let calls := [(NStr "b", DataViewer.DVal (VInt 2)); (NInt 3, DataViewer.DVal VNone)] in
  let st' := DataViewer.mk [DataViewer.ODict (d ++ calls)] [] 0%nat in
  DataViewer.heap st !! DataViewer.cur st = Some (DataViewer.ODict d)
  /\ (In (NStr "a") (map fst d) ->
      DataViewer.set (NStr "a") (DataViewer.DVal (VInt 7)) st = (Some KeyError, st))
  /\ (NoDup (map fst d) -> set_all calls st = (None, st') ->
      NoDup (map fst (d ++ calls))
      /\ DataViewer.heap st' !! DataViewer.cur st' = Some (DataViewer.ODict (d ++ calls))).
Proof.
  intros st d calls st'. split; [reflexivity|].
  pose proof (map_set_unique_names st d (NStr "a") (DataViewer.DVal (VInt 7)) calls st'
                eq_refl) as (Htaken & _ & Hall).
  split; assumption.
Defined.

Lemma set_list_next (st : DataViewer.t) l v :
  DataViewer.heap st !! DataViewer.cur st = Some (DataViewer.OList l) ->
  DataViewer.set (NInt (Z.of_nat (length l))) v st
  = (None, DataViewer.mk
             (<[DataViewer.cur st := DataViewer.OList (l ++ [v])]> (DataViewer.heap st))
             (DataViewer.stack st) (DataViewer.cur st)).
Proof.
  intros Hcur. unfold DataViewer.set. rewrite Hcur. simpl. now rewrite Z.eqb_refl.
Qed.

Lemma set_list_other (st : DataViewer.t) l n v :
  DataViewer.heap st !! DataViewer.cur st = Some (DataViewer.OList l) ->
  n <> NInt (Z.of_nat (length l)) ->
  DataViewer.set n v st = (Some IndexError, st).
Proof.
  intros Hcur Hne%index_differs_neq. unfold DataViewer.set. now rewrite Hcur, Hne.
Qed.

Lemma set_all_list (calls : list (name * DataViewer.dval)) :
  forall (st st' : DataViewer.t) l,
    DataViewer.heap st !! DataViewer.cur st = Some (DataViewer.OList l) ->
    set_all calls st = (None, st') ->
    map fst calls = map (fun i => NInt (Z.of_nat (length l + i))) (seq 0 (length calls))
    /\ DataViewer.heap st' !! DataViewer.cur st' = Some (DataViewer.OList (l ++ map snd calls)).
Proof.
  induction calls as [|[n v] calls IH]; intros st st' l Hcur Hall; simpl in Hall.
  - injection Hall as <-. simpl. rewrite app_nil_r. auto.
  - destruct (DataViewer.index_differs n (length l)) eqn:Hd.
    2: { assert (n = NInt (Z.of_nat (length l))) as ->.
         { destruct n as [i|s]; simpl in Hd; [|done].
           destruct (Z.eqb_spec i (Z.of_nat (length l))) as [->|]; done. }
      rewrite (set_list_next st l v Hcur) in Hall.
      apply (IH _ _ (l ++ [v])) in Hall; simpl.
      * destruct Hall as [Hidx Hheap]. split.
        -- rewrite Nat.add_0_r. f_equal. rewrite Hidx, <- seq_shift, map_map.
           apply map_ext. intros i. rewrite length_app. simpl. do 2 f_equal. lia.
        -- rewrite Hheap. now rewrite <- app_assoc.
      * apply list_lookup_insert_eq. eapply lookup_lt_Some, Hcur. }
    apply index_differs_neq in Hd.
    rewrite (set_list_other st l n v Hcur Hd) in Hall. discriminate.
Qed.

(** C5. In an array of the tree sink, a [set] whose index is not the
    current length raises [IndexError] and changes nothing; the index equal
    to the length appends; so the indices of any sequence of [set] calls
    that all return are the consecutive integers from the length at the
    start, and in a fresh array they are 0, 1, 2, ... with 0 first. *)
Theorem array_set_sequential
    (st : DataViewer.t) (l : list DataViewer.dval)
    (n : name) (v : DataViewer.dval) (calls : list (name * DataViewer.dval))
    (st' : DataViewer.t) :
  DataViewer.heap st !! DataViewer.cur st = Some (DataViewer.OList l) ->
  (n <> NInt (Z.of_nat (length l)) -> DataViewer.set n v st = (Some IndexError, st))
  /\ (n = NInt (Z.of_nat (length l)) ->
      DataViewer.set n v st
      = (None, DataViewer.mk
                 (<[DataViewer.cur st := DataViewer.OList (l ++ [v])]> (DataViewer.heap st))
                 (DataViewer.stack st) (DataViewer.cur st)))
  /\ (set_all calls st = (None, st') ->
      map fst calls = map (fun i => NInt (Z.of_nat (length l + i))) (seq 0 (length calls))
      /\ DataViewer.heap st' !! DataViewer.cur st' = Some (DataViewer.OList (l ++ map snd calls)))
  /\ (l = [] -> set_all calls st = (None, st') ->
      map fst calls = map (fun i => NInt (Z.of_nat i)) (seq 0 (length calls))).
Proof.
  intros Hcur. repeat split.
  - now apply set_list_other.
  - intros ->. now apply set_list_next.
  - eapply set_all_list; eauto.
  - eapply set_all_list; eauto.
  - intros -> Hall. now destruct (set_all_list calls st st' [] Hcur Hall) as [-> _].
Qed.

Lemma array_set_sequential_witness :
  let st := DataViewer.mk [DataViewer.ODict [(NStr "a", DataViewer.DRef 1)]; DataViewer.OList []]
                          [0%nat] 1%nat in
  let calls := [(NInt 0, DataViewer.DVal (VInt 5)); (NInt 1, DataViewer.DVal (VStr "x"))] in
  let st' := DataViewer.mk [DataViewer.ODict [(NStr "a", DataViewer.DRef 1)];
                            DataViewer.OList (map snd calls)] [0%nat] 1%nat in
  DataViewer.heap st !! DataViewer.cur st = Some (DataViewer.OList [])
  /\ set_all calls st = (None, st')
  /\ (NInt 1 <> NInt (Z.of_nat (length (@nil DataViewer.dval))) ->
      DataViewer.set (NInt 1) (DataViewer.DVal VNone) st = (Some IndexError, st))
  /\ map fst calls = map (fun i => NInt (Z.of_nat i)) (seq 0 (length calls)).
Proof.
  intros st calls st'. split; [reflexivity|]. split; [reflexivity|].
  pose proof (array_set_sequential st [] (NInt 1) (DataViewer.DVal VNone) calls st'
                eq_refl) as (Hother & _ & _ & Hfresh).
  split; [exact Hother | apply Hfresh; reflexivity].
Defined.

(** ** The position counter *)

Lemma stream_read_returns (size : option Z) (s s' : Stream) (data : list byte) :
  stream_read size s = (inr data, s') -> s' = stream_take data s.
Proof.
  unfold stream_read. destruct size as [n|].
  - destruct (n <? 0).
    + destruct (kind s); [destruct (n <? -1); [discriminate|]|];
        intros [= <- <-]; reflexivity.
    + intros [= <- <-]. reflexivity.
  - intros [= <- <-]. reflexivity.
Qed.

Lemma read_position (size : option Z) (d d' : Decoder) (data : list byte) :
  read size d = (inr data, d') ->
  pos d' = pos d + Z.of_nat (length data)
  /\ offset (stream d') = (offset (stream d) + length data)%nat
  /\ consumed (stream d') = (consumed (stream d) + length data)%nat.
Proof.
  unfold read. intros Hread.
  destruct (stream_read size (stream d)) as [[e|got] s'] eqn:Hs; [discriminate|].
  apply stream_read_returns in Hs as ->.
  destruct (match size with None => false | Some n => _ end); [discriminate|].
  injection Hread as <- <-. simpl. auto.
Qed.

Lemma seek_position (position : Z) (d d' : Decoder) :
  seek position d = (inr tt, d') ->
  0 <= position /\ pos d' = position /\ offset (stream d') = Z.to_nat position
  /\ consumed (stream d') = consumed (stream d).
Proof.
  unfold seek, stream_seek. destruct (Z.ltb_spec position 0); [discriminate|].
  intros [= <-]. simpl. auto.
Qed.

Lemma scalar_dec {V : Type} {ops : ViewerOps V}
    (n : option name) (size : Z) (c : desc) (w w' : World V) (v : value) :
  scalar n size c w = (inr v, w') ->
  exists data, read (Some size) (dec w) = (inr data, dec w').
Proof.
  unfold scalar. destruct (read (Some size) (dec w)) as [[e|data] d']; [discriminate|].
  destruct (struct_unpack _ c data); [discriminate|].
  intros Hres. exists data. f_equal.
  destruct n as [n'|]; [|now injection Hres as _ <-].
  destruct (name_truthy _); [|now injection Hres as _ <-].
  unfold vset in Hres. simpl in Hres.
  destruct (v_set n' v0 (view w)) as [[e|] view']; [discriminate|].
  now injection Hres as _ <-.
Qed.

(** C8 (amended).  The position counter equals the offset of the cursor's
    own source after every cursor operation that returns: a [read] (sized
    or not) and a typed read advance both by the number of bytes returned,
    [seek(p)] sets both to [p], entering a sub-reader starts a cursor with
    both at 0, and leaving it restores the pair that was pushed.  Reads and
    sub-readers also keep the counter equal to the number of bytes handed
    out since the cursor was created; [seek] does not. *)
Theorem position_tracks_offset {V : Type} {ops : ViewerOps V} (d : Decoder) :
  position_is_offset d ->
  (forall size data d',
      read size d = (inr data, d') ->
      position_is_offset d' /\ (position_is_consumed d -> position_is_consumed d'))
  /\ (forall n size c (sink : V) v w',
         scalar n size c (mkWorld d sink) = (inr v, w') ->
         position_is_offset (dec w')
         /\ (position_is_consumed d -> position_is_consumed (dec w')))
  /\ (forall position d',
         seek position d = (inr tt, d') ->
         position_is_offset d' /\ pos d' = position)
  /\ (forall data,
         position_is_offset (substream_enter data d)
         /\ position_is_consumed (substream_enter data d))
  /\ (forall data d_in,
         stream_stack d_in = stream_stack (substream_enter data d) ->
         exists d_out,
           substream_exit d_in = (None, d_out)
           /\ stream d_out = stream d /\ pos d_out = pos d
           /\ position_is_offset d_out).
Proof.
  unfold position_is_offset, position_is_consumed. intros Hinv.
  split; [|split; [|split; [|split]]].
  - intros size data d' Hread.
    apply read_position in Hread as (-> & -> & ->). lia.
  - intros n size c sink v w' Hrun.
    apply scalar_dec in Hrun as [data Hread].
    apply read_position in Hread as (-> & -> & ->). simpl. lia.
  - intros position d' Hseek.
    apply seek_position in Hseek as (Hp & -> & -> & _). lia.
  - intros data. split; reflexivity.
  - intros data d_in Hstack. unfold substream_exit. rewrite Hstack. simpl.
    eexists. split; [reflexivity|]. simpl. auto.
Qed.

Lemma position_tracks_offset_witness :
  let d := Decoder_init (BytesIO [x61; x62; x63]) true in
  position_is_offset d
  /\ (forall size data d',
         read size d = (inr data, d') ->
         position_is_offset d' /\ (position_is_consumed d -> position_is_consumed d'))
  /\ (forall position d',
         seek position d = (inr tt, d') ->
         position_is_offset d' /\ pos d' = position).
Proof.
  intros d. split; [reflexivity|].
  pose proof (position_tracks_offset (ops := DataViewer.ops) d eq_refl)
    as (Hread & _ & Hseek & _).
  split; assumption.
Defined.

(** C8 as stated fails at [seek]: after [read(2)] and [seek(0)] on a fresh
    cursor the counter is 0 while the source has handed out two bytes. *)
Lemma position_after_seek_counterexample :
  let d0 := Decoder_init (BytesIO [x61; x62; x63]) true in
  let d1 := mkDecoder (mkStream BytesIOStream [x61; x62; x63] 2 2) 2 BigEndian [] in
  let d2 := mkDecoder (mkStream BytesIOStream [x61; x62; x63] 0 2) 0 BigEndian [] in
  position_is_consumed d0
  /\ read (Some 2) d0 = (inr [x61; x62], d1)
  /\ position_is_consumed d1
  /\ seek 0 d1 = (inr tt, d2)
  /\ ~ position_is_consumed d2.
Proof.
  repeat split. vm_compute. discriminate.
Qed.

(** A sized read that raises has already taken the bytes that were left:
    the source is at its end and the counter has not moved. *)
Remark short_read_leaves_position_behind :
  let d0 := Decoder_init (BytesIO [x61; x62; x63]) true in
  read (Some 5) d0
  = (inl EOFError, mkDecoder (mkStream BytesIOStream [x61; x62; x63] 3 3) 0 BigEndian []).
Proof. reflexivity. Qed.

(** ** Runs of driver code *)

Section RunFacts.
Context {V : Type} {ops : ViewerOps V}.
Variable cls : class.

(** One scoped construct run over two bodies, the second of which finishes
    wherever the first does. *)
Lemma with_scope_mono (s : scope) (body body' : M V) (w : World V) r :
  (forall w0 r0, body w0 = Some r0 -> body' w0 = Some r0) ->
  with_scope s body w = Some r -> with_scope s body' w = Some r.
Proof.
  intros Hsub. destruct s as [size|big|n|n]; simpl.
  - unfold substream. destruct (read (Some size) (dec w)) as [[e|data] d']; [done|].
    destruct (body _) as [[o w']|] eqn:Hb; [|done].
    now rewrite (Hsub _ _ Hb).
  - unfold endian_scope. destruct (body _) as [[o w']|] eqn:Hb; [|done].
    now rewrite (Hsub _ _ Hb).
  - unfold Viewer_map, scoped. destruct (v_enter_map n (view w)) as [[e|] view1]; [done|].
    destruct (body _) as [[o w']|] eqn:Hb; [|done].
    now rewrite (Hsub _ _ Hb).
  - unfold Viewer_array, scoped. destruct (v_enter_array n (view w)) as [[e|] view1]; [done|].
    destruct (body _) as [[o w']|] eqn:Hb; [|done].
    now rewrite (Hsub _ _ Hb).
Qed.

(** A run that has finished finishes the same way under any larger bound. *)
Lemma run_mono (fuel : nat) :
  forall (fuel' : nat) (p : prog) (w : World V) r,
    (fuel <= fuel')%nat -> run cls fuel p w = Some r -> run cls fuel' p w = Some r.
Proof.
  induction fuel as [|fuel IH]; intros fuel' p w r Hle Hrun; [discriminate|].
  destruct fuel' as [|fuel']; [lia|].
  assert (Hle' : (fuel <= fuel')%nat) by lia.
  specialize (IH fuel').
  destruct p; simpl in Hrun |- *; try exact Hrun.
  - destruct (run cls fuel p w) as [[o w1]|] eqn:Hp; [|discriminate].
    rewrite (IH _ _ _ Hle' Hp). destruct o; auto.
  - eapply with_scope_mono; [|exact Hrun]. intros w0 r0. now apply IH.
  - destruct (run cls fuel p1 w) as [[o w1]|] eqn:Hp; [|discriminate].
    rewrite (IH _ _ _ Hle' Hp). destruct o; auto.
    destruct (catches e); auto.
  - destruct (run cls fuel p1 w) as [[o w1]|] eqn:Hp; [|discriminate].
    rewrite (IH _ _ _ Hle' Hp). destruct o; auto.
    destruct (truthy v); auto.
    destruct (run cls fuel p2 w1) as [[o2 w2]|] eqn:Hb; [|discriminate].
    rewrite (IH _ _ _ Hle' Hb). destruct o2; auto.
  - destruct xs as [|x xs]; auto.
    destruct (run cls fuel (body x) w) as [[o w1]|] eqn:Hp; [|discriminate].
    rewrite (IH _ _ _ Hle' Hp). destruct o; auto.
  - destruct (cls f) as [m|]; auto.
    destruct (run cls fuel (m args) w) as [[o w1]|] eqn:Hp; [|discriminate].
    now rewrite (IH _ _ _ Hle' Hp).
Qed.

Lemma run_deterministic (fuel1 fuel2 : nat) (p : prog) (w : World V) r1 r2 :
  run cls fuel1 p w = Some r1 -> run cls fuel2 p w = Some r2 -> r1 = r2.
Proof.
  intros H1 H2.
  apply (run_mono fuel1 (fuel1 `max` fuel2)) in H1; [|lia].
  apply (run_mono fuel2 (fuel1 `max` fuel2)) in H2; [|lia].
  congruence.
Qed.

End RunFacts.

Section Frame.
Context {V : Type} {ops : ViewerOps V}.
Variable cls : class.

Lemma seek_frame (position : Z) (d : Decoder) : same_frame d (snd (seek position d)).
Proof.
  unfold seek, same_frame.
  destruct (stream_seek position (stream d)) as [[e|u] s']; simpl; auto.
Qed.

Lemma scalar_frame (n : option name) (size : Z) (c : desc) (w : World V) :
  same_frame (dec w) (dec (snd (scalar n size c w))).
Proof.
  unfold scalar. pose proof (read_stack (Some size) (dec w)) as Hr.
  destruct (read (Some size) (dec w)) as [[e|data] d']; simpl in *; [exact Hr|].
  destruct (struct_unpack _ c data); simpl; [exact Hr|].
  destruct n as [n'|]; [destruct (name_truthy (Some n'))|]; try exact Hr.
  unfold vset. simpl. destruct (v_set n' v (view w)) as [[e|] view']; simpl; exact Hr.
Qed.

Lemma with_scope_frame (s : scope) (body : M V) (w w' : World V) (o : Outcome) :
  (forall w0 o0 w1, body w0 = Some (o0, w1) -> same_frame (dec w0) (dec w1)) ->
  with_scope s body w = Some (o, w') -> same_frame (dec w) (dec w').
Proof.
  intros Hbody. destruct s as [size|big|n|n]; simpl.
  - unfold substream. pose proof (read_stack (Some size) (dec w)) as Hr.
    destruct (read (Some size) (dec w)) as [[e|data] d']; simpl in Hr.
    { intros [= _ <-]. exact Hr. }
    destruct (body _) as [[o1 w1]|] eqn:Hb; [|done].
    apply Hbody in Hb as [Hst He]. simpl in Hst, He.
    unfold substream_exit. rewrite Hst. intros [= _ <-]. simpl.
    unfold same_frame. simpl. destruct Hr. split; congruence.
  - unfold endian_scope. destruct (body _) as [[o1 w1]|] eqn:Hb; [|done].
    apply Hbody in Hb as [Hst He]. intros [= _ <-]. split; simpl; auto.
  - unfold Viewer_map, scoped. destruct (v_enter_map n (view w)) as [[e|] view1].
    { intros [= _ <-]. split; reflexivity. }
    destruct (body _) as [[o1 w1]|] eqn:Hb; [|done].
    apply Hbody in Hb. destruct (v_exit (view w1)). intros [= _ <-]. exact Hb.
  - unfold Viewer_array, scoped. destruct (v_enter_array n (view w)) as [[e|] view1].
    { intros [= _ <-]. split; reflexivity. }
    destruct (body _) as [[o1 w1]|] eqn:Hb; [|done].
    apply Hbody in Hb. destruct (v_exit (view w1)). intros [= _ <-]. exact Hb.
Qed.

Lemma same_frame_trans (d1 d2 d3 : Decoder) :
  same_frame d1 d2 -> same_frame d2 d3 -> same_frame d1 d3.
Proof. unfold same_frame. intros [] []. split; congruence. Qed.

Lemma same_frame_refl (d : Decoder) : same_frame d d.
Proof. split; reflexivity. Qed.

(** Driver code never changes the stack of suspended cursors: whatever it
    pushes it pops, on every way out. *)
Lemma run_frame (fuel : nat) :
  forall (p : prog) (w w' : World V) (o : Outcome),
    run cls fuel p w = Some (o, w') -> same_frame (dec w) (dec w').
Proof.
  induction fuel as [|fuel IH]; intros p w w' o Hrun; [discriminate|].
  destruct p; simpl in Hrun.
  - injection Hrun as _ <-. apply same_frame_refl.
  - injection Hrun as _ <-. apply same_frame_refl.
  - injection Hrun as _ <-. apply same_frame_refl.
  - destruct (run cls fuel p w) as [[o1 w1]|] eqn:Hp; [|discriminate].
    apply IH in Hp.
    destruct o1; [apply IH in Hrun; eapply same_frame_trans; eauto
                 |injection Hrun as _ <-; exact Hp ..].
  - pose proof (read_stack size (dec w)) as Hr.
    destruct (read size (dec w)) as [[e|data] d']; simpl in Hrun, Hr;
      injection Hrun as _ <-; exact Hr.
  - pose proof (scalar_frame n size c w) as Hs.
    destruct (scalar n size c w) as [[e|v] w1]; simpl in Hrun, Hs;
      injection Hrun as _ <-; exact Hs.
  - pose proof (seek_frame position (dec w)) as Hs.
    destruct (seek position (dec w)) as [[e|u] d']; simpl in Hrun, Hs;
      injection Hrun as _ <-; exact Hs.
  - injection Hrun as _ <-. apply same_frame_refl.
  - unfold vset in Hrun. destruct (v_set n v (view w)) as [[e|] view']; simpl in Hrun;
      injection Hrun as _ <-; apply same_frame_refl.
  - destruct (v_blob n data (view w)) as [[e|] view']; simpl in Hrun;
      injection Hrun as _ <-; apply same_frame_refl.
  - eapply with_scope_frame; [|exact Hrun]. intros w0 o0 w1. apply IH.
  - destruct (run cls fuel p1 w) as [[o1 w1]|] eqn:Hp; [|discriminate].
    apply IH in Hp.
    destruct o1; try (injection Hrun as _ <-; exact Hp).
    destruct (catches e); [|injection Hrun as _ <-; exact Hp].
    apply IH in Hrun. eapply same_frame_trans; eauto.
  - destruct (run cls fuel p1 w) as [[o1 w1]|] eqn:Hp; [|discriminate].
    apply IH in Hp.
    destruct o1; try (injection Hrun as _ <-; exact Hp).
    destruct (truthy v); [|injection Hrun as _ <-; exact Hp].
    destruct (run cls fuel p2 w1) as [[o2 w2]|] eqn:Hb; [|discriminate].
    apply IH in Hb. pose proof (same_frame_trans _ _ _ Hp Hb) as Hpb.
    destruct o2; try (injection Hrun as _ <-; exact Hpb).
    apply IH in Hrun. eapply same_frame_trans; eauto.
  - destruct xs as [|x xs]; [injection Hrun as _ <-; apply same_frame_refl|].
    destruct (run cls fuel (body x) w) as [[o1 w1]|] eqn:Hp; [|discriminate].
    apply IH in Hp.
    destruct o1; try (injection Hrun as _ <-; exact Hp).
    apply IH in Hrun. eapply same_frame_trans; eauto.
  - injection Hrun as _ <-. apply same_frame_refl.
  - destruct (cls f) as [m|]; [|injection Hrun as _ <-; apply same_frame_refl].
    destruct (run cls fuel (m args) w) as [[o1 w1]|] eqn:Hp; [|discriminate].
    apply IH in Hp. destruct o1; injection Hrun as _ <-; exact Hp.
Qed.

End Frame.

(** ** The bounded sub-reader *)

(** C1 (amended to lengths that are not negative).  Let [0 <= L] and let
    the active cursor have at least [L] bytes left.  Whatever the body is
    and however it ends (falling through, [return], or an exception),
    [with self.substream(L): body] ends the same way with the previous
    source active again, its offset and [pos] exactly [L] past their values
    at entry, and the stack of suspended cursors as at entry. *)
Theorem substream_restores_parent {V : Type} {ops : ViewerOps V}
    (cls : class) (fuel : nat) (L : Z) (body : prog)
    (w w_in : World V) (o : Outcome) :
  0 <= L -> L <= available (stream (dec w)) ->
  let data := take (Z.to_nat L) (remaining (stream (dec w))) in
  let parent := mkDecoder (stream_take data (stream (dec w))) (pos (dec w) + L)
                          (end_ (dec w)) (stream_stack (dec w)) in
  run cls fuel body (mkWorld (substream_enter data parent) (view w)) = Some (o, w_in) ->
  exists w',
    run cls (S fuel) (With (Substream L) body) w = Some (o, w')
    /\ stream (dec w') = stream_take data (stream (dec w))
    /\ Z.of_nat (offset (stream (dec w'))) = Z.of_nat (offset (stream (dec w))) + L
    /\ pos (dec w') = pos (dec w) + L
    /\ stream_stack (dec w') = stream_stack (dec w)
    /\ view w' = view w_in.
Proof.
  intros HL Hle data parent Hbody.
  destruct (read_Some_enough L (dec w) HL Hle) as [Hread Hlen].
  fold data in Hread, Hlen. fold parent in Hread.
  simpl. unfold substream. rewrite Hread, Hbody.
  pose proof (run_frame cls fuel _ _ _ _ Hbody) as [Hstack _].
  simpl in Hstack. unfold substream_exit. rewrite Hstack.
  eexists. split; [reflexivity|]. simpl. repeat split; auto. lia.
Qed.

Lemma substream_restores_parent_witness :
  let cls : class := fun _ => None in
  let w := mkWorld (Decoder_init (BytesIO [x61; x62; x63; x64; x65]) true)
                   DataViewer.init in
  let body := Bind (Read (Some 1)) (fun _ => Raise ValueError) in
  let w_in :=
    mkWorld (mkDecoder (mkStream BytesIOStream [x61; x62; x63] 1 1) 1 BigEndian
               [(mkStream BytesIOStream [x61; x62; x63; x64; x65] 3 3, 3)])
            DataViewer.init in
  0 <= 3 /\ 3 <= available (stream (dec w))
  /\ exists w',
      run (ops := DataViewer.ops) cls 4 (With (Substream 3) body) w
      = Some (Raised ValueError, w')
      /\ stream (dec w')
         = stream_take (take (Z.to_nat 3) (remaining (stream (dec w)))) (stream (dec w))
      /\ Z.of_nat (offset (stream (dec w'))) = Z.of_nat (offset (stream (dec w))) + 3
      /\ pos (dec w') = pos (dec w) + 3
      /\ stream_stack (dec w') = stream_stack (dec w)
      /\ view w' = view w_in.
Proof.
  intros cls w body w_in.
  split; [lia|]. split; [vm_compute; discriminate|].
  apply (substream_restores_parent (ops := DataViewer.ops) cls 3 3 body w w_in
           (Raised ValueError)).
  - lia.
  - vm_compute. discriminate.
  - reflexivity.
Defined.

(** C1 as stated fails at a negative length: [substream(-1)] on a cursor
    with three bytes left takes all three, so after the scope [pos] is 3
    and not [0 + -1]. *)
Lemma substream_negative_length_counterexample :
  let cls : class := fun _ => None in
  let w := mkWorld (Decoder_init (BytesIO [x61; x62; x63]) true) DataViewer.init in
  let w' := mkWorld (mkDecoder (mkStream BytesIOStream [x61; x62; x63] 3 3) 3 BigEndian [])
                    DataViewer.init in
  -1 <= available (stream (dec w))
  /\ run (ops := DataViewer.ops) cls 2 (With (Substream (-1)) (Ret VNone)) w
     = Some (Normal VNone, w')
  /\ pos (dec w') <> pos (dec w) + -1.
Proof.
  repeat split; vm_compute; discriminate.
Qed.

(** ** Pairing of sink scopes *)

Section Pairing.
Context {V : Type} {ops : ViewerOps V}.
Variable cls : class.

Lemma entered_app l1 l2 :
  Recorder.entered (l1 ++ l2) = (Recorder.entered l1 + Recorder.entered l2)%nat.
Proof. unfold Recorder.entered. now rewrite List.filter_app, length_app. Qed.

Lemma exit_calls_app l1 l2 :
  Recorder.exit_calls (l1 ++ l2) = (Recorder.exit_calls l1 + Recorder.exit_calls l2)%nat.
Proof. unfold Recorder.exit_calls. now rewrite List.filter_app, length_app. Qed.

Lemma paired_refl (v : Recorder.t V) : paired_since v v.
Proof. exists []. split; [now rewrite app_nil_r | reflexivity]. Qed.

Lemma paired_trans (v1 v2 v3 : Recorder.t V) :
  paired_since v1 v2 -> paired_since v2 v3 -> paired_since v1 v3.
Proof.
  intros (l1 & E1 & B1) (l2 & E2 & B2). exists (l1 ++ l2). split.
  - now rewrite E2, E1, app_assoc.
  - rewrite entered_app, exit_calls_app. lia.
Qed.

(** A call that opens or closes no scope. *)
Lemma paired_note (c : Recorder.call) (b : bool) (inner' : V) (st : Recorder.t V) :
  Recorder.is_enter c = false -> Recorder.is_exit c = false ->
  paired_since st (Recorder.mk inner' (Recorder.calls st ++ [(c, b)])).
Proof.
  intros He Hx. exists [(c, b)]. split; [reflexivity|].
  unfold Recorder.entered, Recorder.exit_calls. simpl. now rewrite He, Hx.
Qed.

Lemma paired_scalar n size c (w : World (Recorder.t V)) :
  paired_since (view w) (view (snd (scalar (ops := Recorder.ops) n size c w))).
Proof.
  unfold scalar. destruct (read (Some size) (dec w)) as [[e|data] d']; [apply paired_refl|].
  destruct (struct_unpack _ c data); [apply paired_refl|].
  destruct n as [n'|]; [destruct (name_truthy (Some n'))|]; try apply paired_refl.
  unfold vset, Recorder.note. simpl.
  destruct (v_set n' v (Recorder.inner (view w))) as [[e|] inner']; simpl;
    now apply paired_note.
Qed.

Lemma paired_scoped (enter : name -> V -> option exn * V) (mk_call : name -> Recorder.call)
    (n : name) (body : M (Recorder.t V)) (w w' : World (Recorder.t V)) o :
  Recorder.is_enter (mk_call n) = true -> Recorder.is_exit (mk_call n) = false ->
  (forall w0 o0 w1, body w0 = Some (o0, w1) -> paired_since (view w0) (view w1)) ->
  scoped (ops := Recorder.ops)
         (fun n st => Recorder.note (mk_call n) (enter n (Recorder.inner st)) st)
         n body w = Some (o, w') ->
  paired_since (view w) (view w').
Proof.
  intros He Hx Hbody. unfold scoped, Recorder.note. simpl.
  destruct (enter n (Recorder.inner (view w))) as [[e|] inner1]; simpl.
  - intros [= _ <-]. simpl. eexists. split; [reflexivity|].
    unfold Recorder.entered, Recorder.exit_calls. simpl. now rewrite He, Hx.
  - destruct (body _) as [[o1 w1]|] eqn:Hb; [|done].
    apply Hbody in Hb as (l & El & Bl). simpl in El.
    intros [= _ <-]. simpl. rewrite El.
    exists ((mk_call n, true) :: l
            ++ [(Recorder.CExit,
                 match fst (v_exit (Recorder.inner (view w1))) with
                 | None => true
                 | Some _ => false
                 end)]).
    split.
    + rewrite <- !app_assoc. reflexivity.
    + change (?x :: ?l ++ ?y) with ([x] ++ l ++ y).
      rewrite !entered_app, !exit_calls_app.
      unfold Recorder.entered at 1 3, Recorder.exit_calls at 1 3. simpl.
      rewrite He, Hx. simpl. lia.
Qed.

Lemma paired_with_scope (s : scope) (body : M (Recorder.t V))
    (w w' : World (Recorder.t V)) o :
  (forall w0 o0 w1, body w0 = Some (o0, w1) -> paired_since (view w0) (view w1)) ->
  with_scope (ops := Recorder.ops) s body w = Some (o, w') ->
  paired_since (view w) (view w').
Proof.
  intros Hbody. destruct s as [size|big|n|n]; simpl.
  - unfold substream. destruct (read (Some size) (dec w)) as [[e|data] d'].
    { intros [= _ <-]. apply paired_refl. }
    destruct (body _) as [[o1 w1]|] eqn:Hb; [|done].
    apply Hbody in Hb. destruct (substream_exit (dec w1)). intros [= _ <-]. exact Hb.
  - unfold endian_scope. destruct (body _) as [[o1 w1]|] eqn:Hb; [|done].
    apply Hbody in Hb. intros [= _ <-]. exact Hb.
  - apply (paired_scoped v_enter_map Recorder.CEnterMap); auto.
  - apply (paired_scoped v_enter_array Recorder.CEnterArray); auto.
Qed.

Lemma run_paired (fuel : nat) :
  forall (p : prog) (w w' : World (Recorder.t V)) (o : Outcome),
    run (ops := Recorder.ops) cls fuel p w = Some (o, w') ->
    paired_since (view w) (view w').
Proof.
  induction fuel as [|fuel IH]; intros p w w' o Hrun; [discriminate|].
  destruct p; simpl in Hrun.
  - injection Hrun as _ <-. apply paired_refl.
  - injection Hrun as _ <-. apply paired_refl.
  - injection Hrun as _ <-. apply paired_refl.
  - destruct (run cls fuel p w) as [[o1 w1]|] eqn:Hp; [|discriminate].
    apply IH in Hp.
    destruct o1; [apply IH in Hrun; eapply paired_trans; eauto
                 |injection Hrun as _ <-; exact Hp ..].
  - destruct (read size (dec w)) as [[e|data] d']; simpl in Hrun;
      injection Hrun as _ <-; apply paired_refl.
  - pose proof (paired_scalar n size c w) as Hs.
    destruct (scalar n size c w) as [[e|v] w1]; simpl in Hrun, Hs;
      injection Hrun as _ <-; exact Hs.
  - destruct (seek position (dec w)) as [[e|u] d']; simpl in Hrun;
      injection Hrun as _ <-; apply paired_refl.
  - injection Hrun as _ <-. apply paired_refl.
  - unfold vset, Recorder.note in Hrun. simpl in Hrun.
    destruct (v_set n v (Recorder.inner (view w))) as [[e|] inner']; simpl in Hrun;
      injection Hrun as _ <-; now apply paired_note.
  - unfold Recorder.note in Hrun. simpl in Hrun.
    destruct (v_blob n data (Recorder.inner (view w))) as [[e|] inner']; simpl in Hrun;
      injection Hrun as _ <-; now apply paired_note.
  - eapply paired_with_scope; [|exact Hrun]. intros w0 o0 w1. apply IH.
  - destruct (run cls fuel p1 w) as [[o1 w1]|] eqn:Hp; [|discriminate].
    apply IH in Hp.
    destruct o1; try (injection Hrun as _ <-; exact Hp).
    destruct (catches e); [|injection Hrun as _ <-; exact Hp].
    apply IH in Hrun. eapply paired_trans; eauto.
  - destruct (run cls fuel p1 w) as [[o1 w1]|] eqn:Hp; [|discriminate].
    apply IH in Hp.
    destruct o1; try (injection Hrun as _ <-; exact Hp).
    destruct (truthy v); [|injection Hrun as _ <-; exact Hp].
    destruct (run cls fuel p2 w1) as [[o2 w2]|] eqn:Hb; [|discriminate].
    apply IH in Hb. pose proof (paired_trans _ _ _ Hp Hb) as Hpb.
    destruct o2; try (injection Hrun as _ <-; exact Hpb).
    apply IH in Hrun. eapply paired_trans; eauto.
  - destruct xs as [|x xs]; [injection Hrun as _ <-; apply paired_refl|].
    destruct (run cls fuel (body x) w) as [[o1 w1]|] eqn:Hp; [|discriminate].
    apply IH in Hp.
    destruct o1; try (injection Hrun as _ <-; exact Hp).
    apply IH in Hrun. eapply paired_trans; eauto.
  - injection Hrun as _ <-. apply paired_refl.
  - destruct (cls f) as [m|]; [|injection Hrun as _ <-; apply paired_refl].
    destruct (run cls fuel (m args) w) as [[o1 w1]|] eqn:Hp; [|discriminate].
    apply IH in Hp. destruct o1; injection Hrun as _ <-; exact Hp.
Qed.

End Pairing.

Lemma entered_le_enter_calls (l : list (Recorder.call * bool)) :
  (Recorder.entered l <= Recorder.enter_calls l)%nat.
Proof.
  unfold Recorder.entered, Recorder.enter_calls.
  induction l as [|[c b] l IH]; simpl; [lia|].
  destruct (Recorder.is_enter c), b; simpl; lia.
Qed.

(** C3 (amended to the enter calls that return).  Over any sink, in every
    run that ends, with whatever outcome, the calls the sink has seen since
    the start contain as many [enter_map]/[enter_array] calls that returned
    as [exit] calls; an enter call that raises is followed by no exit, so
    the enter calls made can only outnumber the exits. *)
Theorem sink_scopes_paired {V : Type} {ops : ViewerOps V}
    (cls : class) (fuel : nat) (p : prog) (w w' : World (Recorder.t V)) (o : Outcome) :
  run (ops := Recorder.ops) cls fuel p w = Some (o, w') ->
  exists l,
    Recorder.calls (view w') = Recorder.calls (view w) ++ l
    /\ Recorder.entered l = Recorder.exit_calls l
    /\ (Recorder.exit_calls l <= Recorder.enter_calls l)%nat.
Proof.
  intros Hrun. apply run_paired in Hrun as (l & Hl & Hb).
  exists l. repeat split; auto.
  rewrite <- Hb. apply entered_le_enter_calls.
Qed.

Lemma sink_scopes_paired_witness :
  let cls : class := fun _ => None in
  let p := With (ViewMap (NStr "a"))
             (With (ViewArray (NStr "b")) (VSet (NInt 1) (VInt 0))) in
  let w := mkWorld (Decoder_init (open_file []) true) (Recorder.mk DataViewer.init []) in
  let w' := mkWorld (Decoder_init (open_file []) true)
              (Recorder.mk
                 (DataViewer.mk [DataViewer.ODict [(NStr "a", DataViewer.DRef 1)];
                                 DataViewer.ODict [(NStr "b", DataViewer.DRef 2)];
                                 DataViewer.OList []] [] 0%nat)
                 [(Recorder.CEnterMap (NStr "a"), true);
                  (Recorder.CEnterArray (NStr "b"), true);
                  (Recorder.CSet (NInt 1) (VInt 0), false);
                  (Recorder.CExit, true); (Recorder.CExit, true)]) in
  run (ops := Recorder.ops (ops := DataViewer.ops)) cls 3 p w = Some (Raised IndexError, w')
  /\ exists l,
      Recorder.calls (view w') = Recorder.calls (view w) ++ l
      /\ Recorder.entered l = Recorder.exit_calls l
      /\ (Recorder.exit_calls l <= Recorder.enter_calls l)%nat.
Proof.
  intros cls p w w'. split; [reflexivity|].
  apply (sink_scopes_paired (ops := DataViewer.ops) cls 3 p w w' (Raised IndexError)).
  reflexivity.
Defined.

(** C3 as stated fails when an enter call itself raises: the tree sink
    refuses the second map named ['a'], so the sink has seen two
    [enter_map] calls and one [exit]. *)
Lemma sink_enter_raises_counterexample :
  let cls : class := fun _ => None in
  let p := Bind (With (ViewMap (NStr "a")) (Ret VNone))
                (fun _ => With (ViewMap (NStr "a")) (Ret VNone)) in
  let w := mkWorld (Decoder_init (open_file []) true) (Recorder.mk DataViewer.init []) in
  exists w',
    run (ops := Recorder.ops (ops := DataViewer.ops)) cls 3 p w = Some (Raised KeyError, w')
    /\ Recorder.calls (view w')
       = [(Recorder.CEnterMap (NStr "a"), true); (Recorder.CExit, true);
          (Recorder.CEnterMap (NStr "a"), false)]
    /\ Recorder.enter_calls (Recorder.calls (view w')) = 2%nat
    /\ Recorder.exit_calls (Recorder.calls (view w')) = 1%nat.
Proof.
  eexists. split; [reflexivity|]. repeat split.
Qed.

(** ** The record loop of the QuickTime driver *)

Section RecordLoop.
Context {V : Type} {ops : ViewerOps V}.
Variable iter_lines : list byte -> list string.
Variable layout : class.

Let cls := QtDecoder.methods iter_lines layout.

Lemma scalar_raises_short (size : Z) (c : desc) (w : World V) :
  0 <= size -> available (stream (dec w)) < size ->
  scalar None size c w
  = (inl EOFError, mkWorld (snd (read (Some size) (dec w))) (view w)).
Proof.
  intros Hs Hlt. unfold scalar. now rewrite read_Some_short.
Qed.

Lemma u4_returns (w : World V) :
  4 <= available (stream (dec w)) ->
  scalar None 4 FI w
  = (inr (VInt (unsigned (end_ (dec w)) (take 4 (remaining (stream (dec w)))))),
     mkWorld (mkDecoder (stream_take (take 4 (remaining (stream (dec w)))) (stream (dec w)))
                        (pos (dec w) + 4) (end_ (dec w)) (stream_stack (dec w)))
             (view w)).
Proof.
  intros Hle. unfold scalar.
  destruct (read_Some_enough 4 (dec w)) as [-> Hlen]; [lia|done|].
  unfold struct_unpack. simpl end_.
  change (Z.to_nat 4) with 4%nat in *.
  assert (length (take 4 (remaining (stream (dec w)))) = 4%nat) as -> by lia.
  reflexivity.
Qed.

(** The loop ends quietly when the length prefix cannot be read. *)
Lemma atoms_end_of_input (w : World V) :
  available (stream (dec w)) < 4 ->
  run cls 5 QtDecoder.atoms w
  = Some (Normal VNone, mkWorld (snd (read (Some 4) (dec w))) (view w)).
Proof.
  intros Hlt. simpl. now rewrite scalar_raises_short.
Qed.

(** The loop ends quietly at a zero length prefix. *)
Lemma atoms_sentinel (w : World V) :
  4 <= available (stream (dec w)) ->
  unsigned (end_ (dec w)) (take 4 (remaining (stream (dec w)))) = 0 ->
  run cls 5 QtDecoder.atoms w
  = Some (Normal VNone,
          mkWorld (mkDecoder (stream_take (take 4 (remaining (stream (dec w))))
                                          (stream (dec w)))
                             (pos (dec w) + 4) (end_ (dec w)) (stream_stack (dec w)))
                  (view w)).
Proof.
  intros Hle Hzero. simpl. rewrite u4_returns by done. simpl. rewrite Hzero. reflexivity.
Qed.

End RecordLoop.

(** C6 (amended to the length prefix).  At any nesting depth the record
    loop [atoms] ends without error and without a call to the sink when
    fewer than the four bytes of the length prefix remain, and when the
    length prefix is zero; a whole decode whose input is shorter than four
    bytes, or starts with a zero length prefix, ends without error and
    leaves the sink as it was given: no child entry. *)
Theorem record_loop_ends_quietly {V : Type} {ops : ViewerOps V}
    (iter_lines : list byte -> list string) (layout : class)
    (w : World V) (input : list byte) (sink : V) :
  let cls := QtDecoder.methods iter_lines layout in
  (available (stream (dec w)) < 4 ->
   exists w',
     run cls 5 QtDecoder.atoms w = Some (Normal VNone, w')
     /\ view w' = view w /\ stream_stack (dec w') = stream_stack (dec w))
  /\ (4 <= available (stream (dec w)) ->
      unsigned (end_ (dec w)) (take 4 (remaining (stream (dec w)))) = 0 ->
      exists w',
        run cls 5 QtDecoder.atoms w = Some (Normal VNone, w')
        /\ view w' = view w /\ stream_stack (dec w') = stream_stack (dec w)
        /\ pos (dec w') = pos (dec w) + 4)
  /\ ((length input < 4)%nat
      \/ (4 <= length input)%nat /\ unsigned BigEndian (take 4 input) = 0 ->
      exists w',
        decode cls 7 input true sink = Some (Normal VNone, w')
        /\ view w' = sink).
Proof.
  intros cls. split; [|split].
  - intros Hlt. eexists. split; [now apply atoms_end_of_input|].
    split; [reflexivity|]. apply read_stack.
  - intros Hle Hzero. eexists. split; [now apply atoms_sentinel|]. auto.
  - set (w0 := mkWorld (Decoder_init (open_file input) true) sink).
    assert (Havail : available (stream (dec w0)) = Z.of_nat (length input)).
    { unfold available, remaining. simpl. now rewrite drop_0. }
    assert (Hrun : forall w1, run cls 5 QtDecoder.atoms w0 = Some (Normal VNone, w1) ->
                              decode cls 7 input true sink = Some (Normal VNone, w1)).
    { intros w1 Hatoms. unfold decode. fold w0.
      change (run cls 7 (Call "run" []) w0)
        with (match run cls 6 (Call "atoms" []) w0 with
              | Some (Normal _, w2) => Some (Normal VNone, w2)
              | Some (Returned v, w2) => Some (Normal v, w2)
              | r => r
              end).
      change (run cls 6 (Call "atoms" []) w0)
        with (match run cls 5 QtDecoder.atoms w0 with
              | Some (Normal _, w2) => Some (Normal VNone, w2)
              | Some (Returned v, w2) => Some (Normal v, w2)
              | r => r
              end).
      now rewrite Hatoms. }
    intros [Hshort|[Hlong Hzero]].
    + eexists. split; [apply Hrun, (atoms_end_of_input iter_lines layout w0); lia|].
      reflexivity.
    + eexists. split.
      * apply Hrun, (atoms_sentinel iter_lines layout w0); [lia|].
        unfold remaining. simpl. now rewrite drop_0.
      * reflexivity.
Qed.

Lemma record_loop_ends_quietly_witness :
  let cls := QtDecoder.methods (fun _ => []) (fun _ => None) in
  let w := mkWorld (mkDecoder (BytesIO [x00; x00; x00; x00; x07]) 0 BigEndian
                      [(open_file [x00; x00; x00; x0d; x6d; x6f; x6f; x76;
                                   x00; x00; x00; x00; x07], 13)])
                   DataViewer.init in
  let input := [x00; x00; x00; x00; x07] in
  (4 <= available (stream (dec w))
   /\ unsigned (end_ (dec w)) (take 4 (remaining (stream (dec w)))) = 0)
  /\ (exists w',
        run (ops := DataViewer.ops) cls 5 QtDecoder.atoms w = Some (Normal VNone, w')
        /\ view w' = view w /\ stream_stack (dec w') = stream_stack (dec w)
        /\ pos (dec w') = pos (dec w) + 4)
  /\ (exists w',
        decode (ops := DataViewer.ops) cls 7 input true DataViewer.init
        = Some (Normal VNone, w')
        /\ view w' = DataViewer.init).
Proof.
  intros cls w input.
  pose proof (record_loop_ends_quietly (ops := DataViewer.ops)
                (fun _ => []) (fun _ => None) w input DataViewer.init)
    as (_ & Hsentinel & Htop).
  assert (H4 : 4 <= available (stream (dec w))) by (vm_compute; discriminate).
  assert (H0 : unsigned (end_ (dec w)) (take 4 (remaining (stream (dec w)))) = 0)
    by reflexivity.
  split; [split; assumption|]. split.
  - apply Hsentinel; assumption.
  - apply Htop. right. split; [simpl; lia | reflexivity].
Defined.

(** C6 as stated fails when the length prefix can be read and the type
    cannot: six bytes with a non-zero length prefix make the decode end
    with [EOFError]. *)
Lemma record_loop_truncated_type_counterexample :
  let cls := QtDecoder.methods (fun _ => []) (fun _ => None) in
  let input := [x00; x00; x00; x10; x61; x62] in
  (length input < 8)%nat
  /\ decode (ops := DataViewer.ops) cls 12 input true DataViewer.init
     = Some (Raised EOFError,
             mkWorld (mkDecoder (mkStream FileStream input 6 6) 4 BigEndian [])
                     DataViewer.init).
Proof.
  split; [simpl; lia | reflexivity].
Qed.

(** ** The blob renderer *)

Section Hexdump.
Context {V : Type} {ops : ViewerOps V}.
Variable iter_lines : list byte -> list string.
Variable layout : class.

Let cls := QtDecoder.methods iter_lines layout.

Lemma run_putv (fuel : nat) (s : string) (v : value) (w : World V) :
  run cls (S (S fuel)) (Call "putv" [VStr s; v]) w = lift_unit (vset (NStr s) v w).
Proof.
  change (run cls (S (S fuel)) (Call "putv" [VStr s; v]) w)
    with (match lift_unit (vset (NStr s) v w) with
          | Some (Normal _, w1) => Some (Normal VNone, w1)
          | Some (Returned x, w1) => Some (Normal x, w1)
          | r => r
          end).
  destruct (vset (NStr s) v w) as [[e|] w1]; reflexivity.
Qed.

Lemma set_leaves_app (l1 l2 : list (name * value)) (w : World V) :
  set_leaves (l1 ++ l2) w
  = match set_leaves l1 w with
    | (Some e, w') => (Some e, w')
    | (None, w') => set_leaves l2 w'
    end.
Proof.
  revert w. induction l1 as [|[n v] l1 IH]; intros w; simpl; [reflexivity|].
  destruct (vset n v w) as [[e|] w']; [reflexivity | apply IH].
Qed.

(** The [for] loop of [hexdump] makes one [set] call per line. *)
Lemma run_hexdump_lines (lines : list string) :
  forall w : World V,
    run cls (length lines + 3)
        (For (map VStr lines) (fun line =>
           let (offset, dump) := partition ": " (str_of line) in
           Call "putv" [VStr (replace_space_zero (string_drop 1 offset)); VStr dump]))
        w
    = lift_unit (set_leaves (map leaf_of_line lines) w).
Proof.
  induction lines as [|line lines IH]; intros w; [reflexivity|].
  change (length (line :: lines) + 3)%nat with (S (length lines + 3)).
  cbn [map run set_leaves]. unfold leaf_of_line at 1. cbn [str_of].
  destruct (partition ": " line) as [offset dump].
  replace (length lines + 3)%nat with (S (S (length lines + 1))) at 1 by lia.
  rewrite run_putv.
  destruct (vset _ _ w) as [[e|] w1]; cbn [lift_unit]; [reflexivity|].
  apply IH.
Qed.

(** [hexdump(data, limit)] is the sequence of [set] calls for its leaves. *)
Lemma run_hexdump (data : list byte) (limit : Z) (w : World V) :
  run cls (length (iter_lines (slice_to limit data)) + 4)
      (QtDecoder.hexdump iter_lines data limit) w
  = lift_unit (set_leaves (hexdump_leaves iter_lines data limit) w).
Proof.
  unfold QtDecoder.hexdump, hexdump_leaves.
  replace (length (iter_lines (slice_to limit data)) + 4)%nat
    with (S (length (iter_lines (slice_to limit data)) + 3)) by lia.
  cbn [run]. rewrite run_hexdump_lines, set_leaves_app.
  destruct (set_leaves _ w) as [[e|] w1]; cbn [lift_unit]; [reflexivity|].
  destruct (limit <? Z.of_nat (length data)).
  - replace (length (iter_lines (slice_to limit data)) + 3)%nat
      with (S (S (length (iter_lines (slice_to limit data)) + 1))) by lia.
    rewrite run_putv. cbn [set_leaves].
    destruct (vset _ _ w1) as [[e|] w2]; reflexivity.
  - replace (length (iter_lines (slice_to limit data)) + 3)%nat
      with (S (length (iter_lines (slice_to limit data)) + 2)) by lia.
    reflexivity.
Qed.

End Hexdump.

(** On the text sink every [set] prints one line and none raises. *)
Lemma set_leaves_plain (repr : value -> string) (leaves : list (name * value)) :
  forall w : World PlainViewer.t,
    set_leaves (ops := PlainViewer.ops repr) leaves w
    = (None,
       mkWorld (dec w)
               (PlainViewer.mk (PlainViewer.level (view w))
                  (PlainViewer.out (view w)
                   ++ map (render_leaf repr (PlainViewer.level (view w))) leaves))).
Proof.
  induction leaves as [|[n v] leaves IH]; intros [d [level out]]; simpl.
  - now rewrite app_nil_r.
  - rewrite IH. simpl. now rewrite <- app_assoc.
Qed.

(** C7. With the default cap of 256, [hexdump(data)] hands the renderer the
    first 256 bytes of [data] (all of [data] when it is no longer than
    that) and sets one leaf per rendered line; when [data] is longer than
    256 bytes it then sets one more leaf, [dump_size], whose value is the
    length of [data], and when it is not, no such leaf.  On any sink the
    run is exactly that sequence of [set] calls; on the text sink none of
    them raises and each prints its line. *)
Theorem hexdump_default_cap {V : Type} {ops : ViewerOps V}
    (iter_lines : list byte -> list string) (layout : class)
    (data : list byte) (w : World V)
    (repr : value -> string) (wp : World PlainViewer.t) :
  let cls := QtDecoder.methods iter_lines layout in
  let shown := take 256 data in
  let fuel := (length (iter_lines shown) + 5)%nat in
  let leaves := hexdump_leaves iter_lines data 256 in
  run cls fuel (Call "hexdump" [VBytes data]) w = lift_unit (set_leaves leaves w)
  /\ run (ops := PlainViewer.ops repr) cls fuel (Call "hexdump" [VBytes data]) wp
     = Some (Normal VNone,
             mkWorld (dec wp)
                     (PlainViewer.mk (PlainViewer.level (view wp))
                        (PlainViewer.out (view wp)
                         ++ map (render_leaf repr (PlainViewer.level (view wp))) leaves)))
  /\ ((256 < length data)%nat ->
      length shown = 256%nat
      /\ leaves = map leaf_of_line (iter_lines shown)
                  ++ [(NStr "dump_size", VInt (Z.of_nat (length data)))])
  /\ ((length data <= 256)%nat ->
      shown = data /\ leaves = map leaf_of_line (iter_lines data)).
Proof.
  intros cls shown fuel leaves.
  assert (Hcall : forall (V' : Type) (ops' : ViewerOps V') (w' : World V'),
             run cls fuel (Call "hexdump" [VBytes data]) w'
             = lift_unit (set_leaves leaves w')).
  { intros V' ops' w'. unfold fuel.
    change shown with (slice_to 256 data).
    replace (length (iter_lines (slice_to 256 data)) + 5)%nat
      with (S (length (iter_lines (slice_to 256 data)) + 4)) by lia.
    change (run cls (S (length (iter_lines (slice_to 256 data)) + 4))
                (Call "hexdump" [VBytes data]) w')
      with (match run cls (length (iter_lines (slice_to 256 data)) + 4)
                      (QtDecoder.hexdump iter_lines data 256) w' with
            | Some (Normal _, w1) => Some (Normal VNone, w1)
            | Some (Returned v, w1) => Some (Normal v, w1)
            | r => r
            end).
    unfold cls. rewrite run_hexdump. fold leaves.
    destruct (set_leaves leaves w') as [[e|] w1]; reflexivity. }
  split; [apply Hcall|]. split; [|split].
  - rewrite Hcall, set_leaves_plain. reflexivity.
  - intros Hlong. split.
    + unfold shown. rewrite length_take. lia.
    + unfold leaves, hexdump_leaves.
      destruct (Z.ltb_spec 256 (Z.of_nat (length data))); [reflexivity | lia].
  - intros Hshort. split.
    + unfold shown. now apply take_ge.
    + unfold leaves, hexdump_leaves.
      destruct (Z.ltb_spec 256 (Z.of_nat (length data))); [lia|].
      rewrite app_nil_r. unfold slice_to. simpl.
      change (Pos.to_nat 256) with 256%nat. now rewrite take_ge.
Qed.

Lemma hexdump_default_cap_witness :
  let iter_lines : list byte -> list string :=
    fun d => map (fun b => ("     off: " ++ PlainViewer.hex2 b)%string) d in
  let data := replicate 300 x2a in
  let shown := take 256 data in
  let leaves := hexdump_leaves iter_lines data 256 in
  (256 < length data)%nat
  /\ length shown = 256%nat
  /\ leaves = map leaf_of_line (iter_lines shown) ++ [(NStr "dump_size", VInt 300)].
Proof.
  intros iter_lines data shown leaves.
  pose proof (hexdump_default_cap (ops := DataViewer.ops) iter_lines (fun _ => None) data
                (mkWorld (Decoder_init (open_file []) true) DataViewer.init)
                (fun _ => EmptyString)
                (mkWorld (Decoder_init (open_file []) true) PlainViewer.init))
    as (_ & _ & Hlong & _).
  assert (Hlen : (256 < length data)%nat) by (vm_compute; lia).
  split; [exact Hlen|]. exact (Hlong Hlen).
Defined.

(** * Further properties of the engine *)

(** ** The cursor *)

(** X1. No driver code, however it ends, changes the stack of suspended
    cursors or the byte order of the decoder: every [substream] and every
    [endian] block it opens is undone on the way out. *)
Theorem driver_code_keeps_frame {V : Type} {ops : ViewerOps V}
    (cls : class) (fuel : nat) (p : prog) (w w' : World V) (o : Outcome) :
  run cls fuel p w = Some (o, w') ->
  stream_stack (dec w') = stream_stack (dec w) /\ end_ (dec w') = end_ (dec w).
Proof. apply run_frame. Qed.

Lemma driver_code_keeps_frame_witness :
  let cls : class := fun _ => None in
  let p := With (Endian false)
             (With (Substream 2) (Bind (Scalar None 2 FH) (fun _ => Raise ValueError))) in
  let w := mkWorld (Decoder_init (BytesIO [x01; x02; x03]) true) DataViewer.init in
  let w' := mkWorld (mkDecoder (mkStream BytesIOStream [x01; x02; x03] 2 2) 2 BigEndian [])
                    DataViewer.init in
  run (ops := DataViewer.ops) cls 5 p w = Some (Raised ValueError, w')
  /\ stream_stack (dec w') = stream_stack (dec w) /\ end_ (dec w') = end_ (dec w).
Proof.
  intros cls p w w'. split; [reflexivity|].
  apply (driver_code_keeps_frame (ops := DataViewer.ops) cls 5 p w w' (Raised ValueError)).
  reflexivity.
Defined.

Lemma remaining_stream_take_prefix (n : nat) (s : Stream) :
  remaining (stream_take (take n (remaining s)) s) = drop n (remaining s).
Proof.
  unfold remaining, stream_take. simpl.
  rewrite length_take, length_drop.
  destruct (Nat.le_gt_cases n (length (content s) - offset s)) as [Hle|Hgt].
  - rewrite Nat.min_l by lia. now rewrite drop_drop.
  - rewrite Nat.min_r by lia.
    rewrite !drop_ge; [reflexivity | rewrite length_drop; lia | lia].
Qed.

(** X2. Sized reads compose: when [a + b] bytes are left, [read(a)]
    followed by [read(b)] returns the two halves of what [read(a + b)]
    returns and leaves the decoder in the same state; a [read()] after
    [read(a)] returns everything that is left, so no byte is skipped. *)
Theorem read_read_compose (a b : Z) (d : Decoder) :
  0 <= a -> 0 <= b -> a + b <= available (stream d) ->
  exists da db d1 d2 d3,
    read (Some a) d = (inr da, d1)
    /\ read (Some b) d1 = (inr db, d2)
    /\ read (Some (a + b)) d = (inr (da ++ db), d2)
    /\ read None d1 = (inr (drop (Z.to_nat a) (remaining (stream d))), d3)
    /\ da ++ drop (Z.to_nat a) (remaining (stream d)) = remaining (stream d).
Proof.
  intros Ha Hb Hab.
  destruct (read_Some_enough a d) as [Hra Hla]; [lia|lia|].
  set (da := take (Z.to_nat a) (remaining (stream d))) in *.
  set (d1 := mkDecoder (stream_take da (stream d)) (pos d + a) (end_ d) (stream_stack d)).
  assert (Hrem1 : remaining (stream d1) = drop (Z.to_nat a) (remaining (stream d))).
  { apply remaining_stream_take_prefix. }
  assert (Hav1 : available (stream d1) = available (stream d) - a).
  { unfold available. rewrite Hrem1, length_drop.
    unfold available in Hab. lia. }
  destruct (read_Some_enough b d1) as [Hrb Hlb]; [lia|lia|].
  destruct (read_Some_enough (a + b) d) as [Hrab Hlab]; [lia|lia|].
  rewrite Hrem1 in Hrb, Hlb.
  set (db := take (Z.to_nat b) (drop (Z.to_nat a) (remaining (stream d)))) in *.
  assert (Hcat : take (Z.to_nat (a + b)) (remaining (stream d)) = da ++ db).
  { unfold da, db. rewrite Z2Nat.inj_add by lia. symmetry. apply take_take_drop. }
  rewrite Hcat in Hrab.
  exists da, db, d1. eexists. eexists.
  split; [exact Hra|]. split; [exact Hrb|]. split; [|split].
  - rewrite Hrab. f_equal. unfold d1, stream_take. simpl.
    rewrite length_app. f_equal; [|lia]. f_equal; lia.
  - rewrite read_None. now rewrite Hrem1.
  - apply take_drop.
Qed.

Lemma read_read_compose_witness :
  let d := Decoder_init (BytesIO [x01; x02; x03; x04; x05]) true in
  0 <= 1 /\ 0 <= 2 /\ 1 + 2 <= available (stream d)
  /\ exists da db d1 d2 d3,
      read (Some 1) d = (inr da, d1)
      /\ read (Some 2) d1 = (inr db, d2)
      /\ read (Some (1 + 2)) d = (inr (da ++ db), d2)
      /\ read None d1 = (inr (drop (Z.to_nat 1) (remaining (stream d))), d3)
      /\ da ++ drop (Z.to_nat 1) (remaining (stream d)) = remaining (stream d).
Proof.
  intros d. split; [lia|]. split; [lia|]. split; [vm_compute; discriminate|].
  apply (read_read_compose 1 2 d); [lia | lia | vm_compute; discriminate].
Defined.

(** X3. [seek] gives random access within the active source: a negative
    position is refused and changes nothing; [seek(p)] with [p >= 0] sets
    [pos] to [p], and a following [read(n)] returns the [n] bytes of the
    source from offset [p] when they exist and, for [n > 0], raises
    [EOFError] when the source ends before [p + n]; past the end, [read()]
    returns no bytes. *)
Theorem seek_then_read (p n : Z) (d : Decoder) :
  let len := Z.of_nat (length (content (stream d))) in
  (p < 0 -> exists e, seek p d = (inl e, d))
  /\ (0 <= p ->
      exists d1,
        seek p d = (inr tt, d1)
        /\ pos d1 = p
        /\ remaining (stream d1) = drop (Z.to_nat p) (content (stream d))
        /\ stream_stack d1 = stream_stack d
        /\ (0 <= n -> p + n <= len ->
            exists d2,
              read (Some n) d1
              = (inr (take (Z.to_nat n) (drop (Z.to_nat p) (content (stream d)))), d2)
              /\ pos d2 = p + n)
        /\ (0 < n -> len < p + n -> fst (read (Some n) d1) = inl EOFError)
        /\ (len <= p -> fst (read None d1) = inr [])).
Proof.
  intros len. split.
  - intros Hneg. unfold seek, stream_seek.
    destruct (Z.ltb_spec p 0); [|lia]. destruct d as [s q e st]. simpl. eauto.
  - intros Hp. unfold seek, stream_seek. destruct (Z.ltb_spec p 0); [lia|].
    eexists. split; [reflexivity|]. simpl.
    set (d1 := mkDecoder _ p (end_ d) (stream_stack d)).
    assert (Hrem : remaining (stream d1) = drop (Z.to_nat p) (content (stream d)))
      by reflexivity.
    assert (Hav : available (stream d1) = Z.max 0 (len - p)).
    { unfold available. rewrite Hrem, length_drop. unfold len. lia. }
    repeat split; auto.
    + intros Hn Hfit.
      destruct (read_Some_enough n d1) as [Hr _]; [lia|lia|].
      rewrite Hrem in Hr. eexists. split; [exact Hr|reflexivity].
    + intros Hn Hover. rewrite read_Some_short; [reflexivity|lia|lia].
    + intros Hpast. change (fst (read None d1) = inr []).
      rewrite read_None. cbn [fst]. rewrite Hrem.
      rewrite drop_ge; [reflexivity|]. unfold len in Hpast. lia.
Qed.

Lemma seek_then_read_witness :
  let d := Decoder_init (BytesIO [x01; x02; x03; x04; x05]) true in
  (-1 < 0 -> exists e, seek (-1) d = (inl e, d))
  /\ (0 <= 3 ->
      exists d1,
        seek 3 d = (inr tt, d1)
        /\ pos d1 = 3
        /\ remaining (stream d1) = drop (Z.to_nat 3) (content (stream d))
        /\ stream_stack d1 = stream_stack d
        /\ (0 <= 2 -> 3 + 2 <= Z.of_nat (length (content (stream d))) ->
            exists d2,
              read (Some 2) d1
              = (inr (take (Z.to_nat 2) (drop (Z.to_nat 3) (content (stream d)))), d2)
              /\ pos d2 = 3 + 2)
        /\ (0 < 2 -> Z.of_nat (length (content (stream d))) < 3 + 2 ->
            fst (read (Some 2) d1) = inl EOFError)
        /\ (Z.of_nat (length (content (stream d))) <= 3 -> fst (read None d1) = inr []))
  /\ -1 < 0 /\ 0 <= 3 /\ 3 + 2 <= Z.of_nat (length (content (stream d))).
Proof.
  intros d.
  pose proof (seek_then_read (-1) 2 d) as [Hneg _].
  pose proof (seek_then_read 3 2 d) as [_ Hpos].
  split; [exact Hneg|]. split; [exact Hpos|].
  split; [lia|]. split; [lia|]. vm_compute. discriminate.
Defined.

(** ** The typed readers *)

Lemma le_unsigned_range (data : list byte) :
  0 <= le_unsigned data < 2 ^ (8 * Z.of_nat (length data)).
Proof.
  induction data as [|b data IH]; [simpl; lia|].
  cbn [le_unsigned length].
  pose proof (Byte.to_N_bounded b) as Hb.
  replace (8 * Z.of_nat (S (length data))) with (8 + 8 * Z.of_nat (length data)) by lia.
  rewrite Z.pow_add_r by lia. change (2 ^ 8) with 256. lia.
Qed.

Lemma unsigned_range (e : endian) (data : list byte) :
  0 <= unsigned e data < 2 ^ (8 * Z.of_nat (length data)).
Proof.
  destruct e; simpl; [|apply le_unsigned_range].
  rewrite <- length_rev. apply le_unsigned_range.
Qed.

Lemma signed_range (e : endian) (data : list byte) :
  data <> [] ->
  - 2 ^ (8 * Z.of_nat (length data) - 1) <= signed e data
  < 2 ^ (8 * Z.of_nat (length data) - 1).
Proof.
  intros Hne. unfold signed. pose proof (unsigned_range e data) as Hu.
  assert (Hlen : 0 < Z.of_nat (length data)) by (destruct data; [done|simpl; lia]).
  assert (Hpow : 2 ^ (8 * Z.of_nat (length data))
                 = 2 * 2 ^ (8 * Z.of_nat (length data) - 1)).
  { rewrite <- Z.pow_succ_r by lia. f_equal. lia. }
  destruct (Z.ltb_spec (unsigned e data) (2 ^ (8 * Z.of_nat (length data) - 1))); lia.
Qed.

(** X4. When enough bytes are left, an integer reader returns an integer in
    the range of its width and sign ([0 <= v < 2^(8w)] for [u1], [u2],
    [u4], [u8]; [-2^(8w-1) <= v < 2^(8w-1)] for [i1], [i2], [i4], [i8]),
    advances [pos] by the width, and the signed and the unsigned reading of
    the same bytes differ by a multiple of [2^(8w)]. *)
Theorem integer_readers_in_range {V : Type} {ops : ViewerOps V}
    (c : desc) (w : World V) :
  let width := Z.of_nat (calcsize c) in
  let data := take (calcsize c) (remaining (stream (dec w))) in
  width <= available (stream (dec w)) ->
  c <> Ff -> c <> Fd ->
  exists v w',
    scalar None width c w = (inr (VInt v), w')
    /\ pos (dec w') = pos (dec w) + width
    /\ match c with
       | FB | FH | FI | FQ => 0 <= v < 2 ^ (8 * width) /\ v = unsigned (end_ (dec w)) data
       | _ => - 2 ^ (8 * width - 1) <= v < 2 ^ (8 * width - 1)
              /\ (v - unsigned (end_ (dec w)) data) mod 2 ^ (8 * width) = 0
       end.
Proof.
  intros width data Hle Hf Hd. unfold scalar.
  destruct (read_Some_enough width (dec w)) as [-> Hlen]; [lia|done|].
  replace (Z.to_nat width) with (calcsize c) in * by (unfold width; lia).
  fold data in Hlen |- *.
  assert (Hl : length data = calcsize c) by lia.
  unfold struct_unpack. cbn [end_]. rewrite Hl, Nat.eqb_refl. cbn [negb].
  assert (Hne : data <> []) by (intros E; rewrite E in Hl; destruct c; discriminate).
  pose proof (unsigned_range (end_ (dec w)) data) as Hu.
  pose proof (signed_range (end_ (dec w)) data Hne) as Hs.
  assert (Hmod : (signed (end_ (dec w)) data - unsigned (end_ (dec w)) data)
                 mod 2 ^ (8 * width) = 0).
  { unfold signed. rewrite Hl. fold width.
    destruct (_ <? _).
    - now rewrite Z.sub_diag.
    - replace (unsigned (end_ (dec w)) data - 2 ^ (8 * width) - unsigned (end_ (dec w)) data)
        with (-1 * 2 ^ (8 * width)) by lia.
      apply Z_mod_mult. }
  rewrite Hl in Hu, Hs. fold width in Hu, Hs.
  destruct c; try done; eexists _, _; (split; [reflexivity|]); cbn [dec pos]; auto.
Qed.

Lemma integer_readers_in_range_witness :
  let w := mkWorld (Decoder_init (BytesIO [xff; xfe; x03]) true) DataViewer.init in
  Z.of_nat (calcsize Fh) <= available (stream (dec w))
  /\ exists v w',
      scalar (ops := DataViewer.ops) None (Z.of_nat (calcsize Fh)) Fh w = (inr (VInt v), w')
      /\ pos (dec w') = pos (dec w) + Z.of_nat (calcsize Fh)
      /\ (- 2 ^ (8 * Z.of_nat (calcsize Fh) - 1) <= v < 2 ^ (8 * Z.of_nat (calcsize Fh) - 1)
          /\ (v - unsigned (end_ (dec w))
                    (take (calcsize Fh) (remaining (stream (dec w)))))
             mod 2 ^ (8 * Z.of_nat (calcsize Fh)) = 0).
Proof.
  intros w. split; [vm_compute; discriminate|].
  apply (integer_readers_in_range (ops := DataViewer.ops) Fh w);
    [vm_compute; discriminate | discriminate | discriminate].
Defined.

(** ** What a run does to a sink *)

(** A relation between the state of a sink before and after that holds
    across every single [set] and [blob] call and across every scope that
    is entered and left holds across every run. *)
Section SinkRelation.
Context {V : Type} {ops : ViewerOps V}.
Variable cls : class.
Variable R : V -> V -> Prop.
Hypothesis R_refl : forall v, R v v.
Hypothesis R_trans : forall v1 v2 v3, R v1 v2 -> R v2 v3 -> R v1 v3.
Hypothesis R_set : forall n x v, R v (snd (v_set n x v)).
Hypothesis R_blob : forall n data v, R v (snd (v_blob n data v)).
Hypothesis R_map :
  forall n v,
    match v_enter_map n v with
    | (Some _, v1) => R v v1
    | (None, v1) => forall v2, R v1 v2 -> R v (snd (v_exit v2))
    end.
Hypothesis R_array :
  forall n v,
    match v_enter_array n v with
    | (Some _, v1) => R v v1
    | (None, v1) => forall v2, R v1 v2 -> R v (snd (v_exit v2))
    end.

Lemma scalar_sink_relation n size c (w : World V) :
  R (view w) (view (snd (scalar n size c w))).
Proof.
  unfold scalar. destruct (read (Some size) (dec w)) as [[e|data] d']; [apply R_refl|].
  destruct (struct_unpack _ c data); [apply R_refl|].
  destruct n as [n'|]; [destruct (name_truthy (Some n'))|]; try apply R_refl.
  unfold vset. cbn [view dec]. pose proof (R_set n' v (view w)) as Hs.
  destruct (v_set n' v (view w)) as [[e|] view']; exact Hs.
Qed.

Lemma scoped_sink_relation (enter : name -> V -> option exn * V) (n : name)
    (body : M V) (w w' : World V) o :
  (forall v, match enter n v with
             | (Some _, v1) => R v v1
             | (None, v1) => forall v2, R v1 v2 -> R v (snd (v_exit v2))
             end) ->
  (forall w0 o0 w1, body w0 = Some (o0, w1) -> R (view w0) (view w1)) ->
  scoped enter n body w = Some (o, w') -> R (view w) (view w').
Proof.
  intros Henter Hbody. unfold scoped. specialize (Henter (view w)).
  destruct (enter n (view w)) as [[e|] view1].
  - intros [= _ <-]. exact Henter.
  - destruct (body _) as [[o1 w1]|] eqn:Hb; [|done].
    apply Hbody in Hb. cbn [view] in Hb. specialize (Henter _ Hb).
    destruct (v_exit (view w1)) as [e view2]. intros [= _ <-]. exact Henter.
Qed.

Lemma with_scope_sink_relation (s : scope) (body : M V) (w w' : World V) o :
  (forall w0 o0 w1, body w0 = Some (o0, w1) -> R (view w0) (view w1)) ->
  with_scope s body w = Some (o, w') -> R (view w) (view w').
Proof.
  intros Hbody. destruct s as [size|big|n|n]; simpl.
  - unfold substream. destruct (read (Some size) (dec w)) as [[e|data] d'].
    { intros [= _ <-]. apply R_refl. }
    destruct (body _) as [[o1 w1]|] eqn:Hb; [|done].
    apply Hbody in Hb. destruct (substream_exit (dec w1)). intros [= _ <-]. exact Hb.
  - unfold endian_scope. destruct (body _) as [[o1 w1]|] eqn:Hb; [|done].
    apply Hbody in Hb. intros [= _ <-]. exact Hb.
  - apply scoped_sink_relation; [intros v; apply R_map | exact Hbody].
  - apply scoped_sink_relation; [intros v; apply R_array | exact Hbody].
Qed.

Lemma run_sink_relation (fuel : nat) :
  forall (p : prog) (w w' : World V) (o : Outcome),
    run cls fuel p w = Some (o, w') -> R (view w) (view w').
Proof.
  induction fuel as [|fuel IH]; intros p w w' o Hrun; [discriminate|].
  destruct p; simpl in Hrun.
  - injection Hrun as _ <-. apply R_refl.
  - injection Hrun as _ <-. apply R_refl.
  - injection Hrun as _ <-. apply R_refl.
  - destruct (run cls fuel p w) as [[o1 w1]|] eqn:Hp; [|discriminate].
    apply IH in Hp.
    destruct o1; [apply IH in Hrun; eapply R_trans; eauto
                 |injection Hrun as _ <-; exact Hp ..].
  - destruct (read size (dec w)) as [[e|data] d']; simpl in Hrun;
      injection Hrun as _ <-; apply R_refl.
  - pose proof (scalar_sink_relation n size c w) as Hs.
    destruct (scalar n size c w) as [[e|v] w1]; simpl in Hrun, Hs;
      injection Hrun as _ <-; exact Hs.
  - destruct (seek position (dec w)) as [[e|u] d']; simpl in Hrun;
      injection Hrun as _ <-; apply R_refl.
  - injection Hrun as _ <-. apply R_refl.
  - unfold vset in Hrun. pose proof (R_set n v (view w)) as Hs.
    destruct (v_set n v (view w)) as [[e|] view']; simpl in Hrun;
      injection Hrun as _ <-; exact Hs.
  - pose proof (R_blob n data (view w)) as Hs.
    destruct (v_blob n data (view w)) as [[e|] view']; simpl in Hrun;
      injection Hrun as _ <-; exact Hs.
  - eapply with_scope_sink_relation; [|exact Hrun]. intros w0 o0 w1. apply IH.
  - destruct (run cls fuel p1 w) as [[o1 w1]|] eqn:Hp; [|discriminate].
    apply IH in Hp.
    destruct o1; try (injection Hrun as _ <-; exact Hp).
    destruct (catches e); [|injection Hrun as _ <-; exact Hp].
    apply IH in Hrun. eapply R_trans; eauto.
  - destruct (run cls fuel p1 w) as [[o1 w1]|] eqn:Hp; [|discriminate].
    apply IH in Hp.
    destruct o1; try (injection Hrun as _ <-; exact Hp).
    destruct (truthy v); [|injection Hrun as _ <-; exact Hp].
    destruct (run cls fuel p2 w1) as [[o2 w2]|] eqn:Hb; [|discriminate].
    apply IH in Hb. pose proof (R_trans _ _ _ Hp Hb) as Hpb.
    destruct o2; try (injection Hrun as _ <-; exact Hpb).
    apply IH in Hrun. eapply R_trans; eauto.
  - destruct xs as [|x xs]; [injection Hrun as _ <-; apply R_refl|].
    destruct (run cls fuel (body x) w) as [[o1 w1]|] eqn:Hp; [|discriminate].
    apply IH in Hp.
    destruct o1; try (injection Hrun as _ <-; exact Hp).
    apply IH in Hrun. eapply R_trans; eauto.
  - injection Hrun as _ <-. apply R_refl.
  - destruct (cls f) as [m|]; [|injection Hrun as _ <-; apply R_refl].
    destruct (run cls fuel (m args) w) as [[o1 w1]|] eqn:Hp; [|discriminate].
    apply IH in Hp. destruct o1; injection Hrun as _ <-; exact Hp.
Qed.

End SinkRelation.

(** X5. On the text sink, whatever driver code runs and however it ends,
    the indent level is afterwards what it was before and the text printed
    before is still there, with the new lines after it. *)
Theorem text_sink_level_restored
    (repr : value -> string) (cls : class) (fuel : nat) (p : prog)
    (w w' : World PlainViewer.t) (o : Outcome) :
  run (ops := PlainViewer.ops repr) cls fuel p w = Some (o, w') ->
  PlainViewer.level (view w') = PlainViewer.level (view w)
  /\ exists lines, PlainViewer.out (view w') = PlainViewer.out (view w) ++ lines.
Proof.
  apply (run_sink_relation (ops := PlainViewer.ops repr) cls
           (fun v v' => PlainViewer.level v' = PlainViewer.level v
                        /\ exists lines, PlainViewer.out v' = PlainViewer.out v ++ lines)).
  - intros v. split; [reflexivity|]. exists []. now rewrite app_nil_r.
  - intros v1 v2 v3 [L1 [l1 O1]] [L2 [l2 O2]]. split; [congruence|].
    exists (l1 ++ l2). now rewrite O2, O1, app_assoc.
  - intros n x v. simpl. split; [reflexivity|]. eauto.
  - intros n data v. simpl. split; [reflexivity|]. eauto.
  - intros n v. simpl. intros v2 [L [l O]]. simpl in L, O. simpl. split; [lia|].
    rewrite O, <- app_assoc. eauto.
  - intros n v. simpl. intros v2 [L [l O]]. simpl in L, O. simpl. split; [lia|].
    rewrite O, <- app_assoc. eauto.
Qed.

Lemma text_sink_level_restored_witness :
  let repr : value -> string := fun _ => "v"%string in
  let cls : class := fun _ => None in
  let p := With (ViewMap (NStr "a"))
             (Bind (VSet (NStr "x") (VInt 1)) (fun _ =>
              With (ViewArray (NInt 0)) (Read (Some 4)))) in
  let w := mkWorld (Decoder_init (open_file [x01]) true) (PlainViewer.mk 2 ["before"%string]) in
  exists w',
    run (ops := PlainViewer.ops repr) cls 5 p w = Some (Raised EOFError, w')
    /\ PlainViewer.level (view w') = PlainViewer.level (view w)
    /\ exists lines, PlainViewer.out (view w') = PlainViewer.out (view w) ++ lines.
Proof.
  intros repr cls p w.
  destruct (run (ops := PlainViewer.ops repr) cls 5 p w) as [[o w']|] eqn:Hrun;
    [|vm_compute in Hrun; discriminate].
  exists w'. split; [vm_compute in Hrun; injection Hrun as <- <-; reflexivity|].
  exact (text_sink_level_restored repr cls 5 p w w' o Hrun).
Defined.

(** ** The tree sink across a run *)

Lemma obj_extends_refl (o : DataViewer.obj) : obj_extends o o.
Proof. destruct o; exists []; now rewrite app_nil_r. Qed.

Lemma obj_extends_trans (o1 o2 o3 : DataViewer.obj) :
  obj_extends o1 o2 -> obj_extends o2 o3 -> obj_extends o1 o3.
Proof.
  destruct o1, o2, o3; simpl; try done;
    intros [l1 ->] [l2 ->]; exists (l1 ++ l2); now rewrite app_assoc.
Qed.

Lemma heap_extends_refl (h : list DataViewer.obj) : heap_extends h h.
Proof. intros a o Ha. exists o. split; [done | apply obj_extends_refl]. Qed.

Lemma heap_extends_trans (h1 h2 h3 : list DataViewer.obj) :
  heap_extends h1 h2 -> heap_extends h2 h3 -> heap_extends h1 h3.
Proof.
  intros H12 H23 a o Ha.
  destruct (H12 a o Ha) as (o2 & Ha2 & E12).
  destruct (H23 a o2 Ha2) as (o3 & Ha3 & E23).
  exists o3. split; [done | eapply obj_extends_trans; eauto].
Qed.

Lemma heap_extends_insert (h : list DataViewer.obj) (c : nat) (o o' : DataViewer.obj) :
  h !! c = Some o -> obj_extends o o' -> heap_extends h (<[c := o']> h).
Proof.
  intros Hc Hext a x Ha. destruct (decide (a = c)) as [->|Hne].
  - exists o'. rewrite list_lookup_insert_eq by (eapply lookup_lt_Some; eauto).
    split; [done|]. congruence.
  - exists x. rewrite list_lookup_insert_ne by done.
    split; [done | apply obj_extends_refl].
Qed.

Lemma heap_extends_app (h : list DataViewer.obj) (new : DataViewer.obj) :
  heap_extends h (h ++ [new]).
Proof.
  intros a o Ha. exists o. split; [|apply obj_extends_refl].
  rewrite lookup_app_l; [done | eapply lookup_lt_Some; eauto].
Qed.

Lemma tree_kept_refl (v : DataViewer.t) : tree_kept v v.
Proof. intros Hwf. repeat split; auto using heap_extends_refl; apply Hwf. Qed.

Lemma tree_kept_trans (v1 v2 v3 : DataViewer.t) :
  tree_kept v1 v2 -> tree_kept v2 v3 -> tree_kept v1 v3.
Proof.
  intros H12 H23 Hwf.
  destruct (H12 Hwf) as (W2 & C2 & S2 & E2 & K2).
  destruct (H23 W2) as (W3 & C3 & S3 & E3 & K3).
  repeat split; try apply W3; try congruence; eauto using heap_extends_trans.
Qed.

Lemma tree_kept_set (n : name) (x : DataViewer.dval) (v : DataViewer.t) :
  tree_kept v (snd (DataViewer.set n x v)).
Proof.
  intros Hwf. unfold DataViewer.set.
  destruct (DataViewer.heap v !! DataViewer.cur v) as [[d|l]|] eqn:Hcur;
    [| |apply tree_kept_refl, Hwf].
  - destruct (DataViewer.has_key n d) eqn:Hk; [apply tree_kept_refl, Hwf|].
    destruct Hwf as [Hc Hs]. cbn [snd]. unfold DataViewer.wf. cbn.
    rewrite length_insert. repeat split; auto.
    + eapply heap_extends_insert; [exact Hcur|]. simpl. eauto.
    + intros Hu. apply Forall_insert; [exact Hu|].
      pose proof (Forall_lookup_1 _ _ _ _ Hu Hcur) as Hnd. simpl in Hnd.
      rewrite map_app. simpl. apply NoDup_app. repeat split; [done| |apply NoDup_singleton].
      intros k Hin ->%list_elem_of_singleton.
      apply list_elem_of_In, has_key_In in Hin. congruence.
  - destruct (DataViewer.index_differs n (length l)); [apply tree_kept_refl, Hwf|].
    destruct Hwf as [Hc Hs]. cbn [snd]. unfold DataViewer.wf. cbn.
    rewrite length_insert. repeat split; auto.
    + eapply heap_extends_insert; [exact Hcur|]. simpl. eauto.
    + intros Hu. apply Forall_insert; [exact Hu | done].
Qed.

Lemma heap_extends_length (h h' : list DataViewer.obj) :
  heap_extends h h' -> (length h <= length h')%nat.
Proof.
  intros Hext. destruct h as [|o h] using rev_ind; [simpl; lia|].
  destruct (Hext (length h) o) as (o' & Ho' & _).
  { rewrite lookup_app_r by lia. now rewrite Nat.sub_diag. }
  apply lookup_lt_Some in Ho'. rewrite length_app. simpl. lia.
Qed.

Lemma tree_kept_enter (new : DataViewer.obj) (n : name) (v : DataViewer.t) :
  keys_unique [new] ->
  match DataViewer.enter new n v with
  | (Some _, v1) => tree_kept v v1
  | (None, v1) => forall v2, tree_kept v1 v2 -> tree_kept v (snd (DataViewer.exit v2))
  end.
Proof.
  intros Hnew. unfold DataViewer.enter.
  set (v0 := DataViewer.mk (DataViewer.heap v ++ [new]) (DataViewer.stack v)
                           (DataViewer.cur v)).
  pose proof (tree_kept_set n (DataViewer.DRef (length (DataViewer.heap v))) v0) as Hset.
  destruct (DataViewer.set n _ v0) as [[e|] v1]; [apply tree_kept_refl|].
  intros v2 Hbody [Hc Hs].
  assert (Hwf0 : DataViewer.wf v0).
  { split; cbn; rewrite length_app; simpl; [lia|].
    eapply Forall_impl; [exact Hs|]. simpl. intros. lia. }
  destruct (Hset Hwf0) as ([Hc1 Hs1] & C1 & S1 & E1 & K1). cbn [snd] in *.
  subst v0.
  cbn [DataViewer.cur DataViewer.stack DataViewer.heap] in C1, S1, E1, K1.
  pose proof (heap_extends_length _ _ E1) as Hlen1. rewrite length_app in Hlen1.
  simpl in Hlen1.
  destruct Hbody as ([Hc2 Hs2] & C2 & S2 & E2 & K2).
  { split; cbn; [lia|]. rewrite C1, S1. constructor; [lia|].
    eapply Forall_impl; [exact Hs|]. simpl. intros. lia. }
  cbn [DataViewer.cur DataViewer.stack DataViewer.heap] in C2, S2, E2, K2.
  unfold DataViewer.exit. rewrite S2, C1, S1. cbn [snd].
  rewrite S2, C1, S1 in Hs2. inversion Hs2 as [|? ? Hc3 Hs3]; subst.
  split; [split; assumption|]. cbn. repeat split.
  - eapply heap_extends_trans; [apply heap_extends_app|].
    eapply heap_extends_trans; [exact E1 | exact E2].
  - intros Hu. apply K2, K1. apply Forall_app. split; [exact Hu | exact Hnew].
Qed.

(** X6. On the tree sink, whatever driver code runs and however it ends:
    the current container and the stack of open containers are afterwards
    what they were before, so after a whole decode [result()] is still the
    root; every container recorded before is still at its place with its
    old items, in order, before any new ones; and no [dict] holds a key
    twice if none did before. *)
Theorem tree_sink_kept_across_run
    (cls : class) (fuel : nat) (p : prog) (w w' : World DataViewer.t) (o : Outcome) :
  DataViewer.wf (view w) ->
  run (ops := DataViewer.ops) cls fuel p w = Some (o, w') ->
  DataViewer.wf (view w')
  /\ DataViewer.cur (view w') = DataViewer.cur (view w)
  /\ DataViewer.stack (view w') = DataViewer.stack (view w)
  /\ heap_extends (DataViewer.heap (view w)) (DataViewer.heap (view w'))
  /\ (keys_unique (DataViewer.heap (view w)) -> keys_unique (DataViewer.heap (view w'))).
Proof.
  intros Hwf Hrun. revert Hwf. change (tree_kept (view w) (view w')).
  revert Hrun. apply (run_sink_relation (ops := DataViewer.ops) cls tree_kept).
  - apply tree_kept_refl.
  - apply tree_kept_trans.
  - intros n x v. apply tree_kept_set.
  - intros n data v. apply tree_kept_set.
  - intros n v. apply (tree_kept_enter (DataViewer.ODict [])).
    repeat constructor.
  - intros n v. apply (tree_kept_enter (DataViewer.OList [])).
    repeat constructor.
Qed.

Lemma tree_sink_kept_across_run_witness :
  let cls : class := fun _ => None in
  let p := With (ViewMap (NStr "a"))
             (Bind (VSet (NStr "x") (VInt 1)) (fun _ =>
              With (ViewArray (NStr "x")) (Ret VNone))) in
  let w := mkWorld (Decoder_init (open_file []) true) DataViewer.init in
  exists w',
    DataViewer.wf (view w)
    /\ run (ops := DataViewer.ops) cls 5 p w = Some (Raised KeyError, w')
    /\ DataViewer.wf (view w')
    /\ DataViewer.cur (view w') = DataViewer.cur (view w)
    /\ DataViewer.stack (view w') = DataViewer.stack (view w)
    /\ heap_extends (DataViewer.heap (view w)) (DataViewer.heap (view w'))
    /\ (keys_unique (DataViewer.heap (view w)) -> keys_unique (DataViewer.heap (view w'))).
Proof.
  intros cls p w.
  assert (Hwf : DataViewer.wf (view w)) by (split; simpl; [lia | constructor]).
  destruct (run (ops := DataViewer.ops) cls 5 p w) as [[o w']|] eqn:Hrun;
    [|vm_compute in Hrun; discriminate].
  exists w'. split; [exact Hwf|].
  split; [vm_compute in Hrun; injection Hrun as <- <-; reflexivity|].
  exact (tree_sink_kept_across_run cls 5 p w w' o Hwf Hrun).
Defined.

(** ** A map scope on the tree sink *)

Lemma set_all_dict_state (calls : list (name * DataViewer.dval)) :
  forall (st : DataViewer.t) d,
    DataViewer.heap st !! DataViewer.cur st = Some (DataViewer.ODict d) ->
    NoDup (map fst (d ++ calls)) ->
    set_all calls st
    = (None, DataViewer.mk
               (<[DataViewer.cur st := DataViewer.ODict (d ++ calls)]> (DataViewer.heap st))
               (DataViewer.stack st) (DataViewer.cur st)).
Proof.
  induction calls as [|[n v] calls IH]; intros st d Hcur Hnd.
  - simpl. rewrite app_nil_r, list_insert_id by done. now destruct st.
  - simpl. rewrite (set_dict_fresh st d n v Hcur).
    + rewrite (IH _ (d ++ [(n, v)])); cbn.
      * rewrite list_insert_insert_eq, <- app_assoc. reflexivity.
      * apply list_lookup_insert_eq. eapply lookup_lt_Some, Hcur.
      * now rewrite <- app_assoc.
    + rewrite map_app in Hnd. apply NoDup_app in Hnd as (_ & Hdisj & _).
      intros Hin%list_elem_of_In. apply (Hdisj _ Hin). simpl. left.
Qed.

Lemma set_leaves_tree (leaves : list (name * value)) :
  forall w : World DataViewer.t,
    set_leaves (ops := DataViewer.ops) leaves w
    = (fst (set_all (map (fun kv => (fst kv, DataViewer.DVal (snd kv))) leaves) (view w)),
       mkWorld (dec w)
         (snd (set_all (map (fun kv => (fst kv, DataViewer.DVal (snd kv))) leaves) (view w)))).
Proof.
  induction leaves as [|[n v] leaves IH]; intros w; [now destruct w|].
  simpl. unfold vset. simpl.
  destruct (DataViewer.set n (DataViewer.DVal v) (view w)) as [[e|] v']; [reflexivity|].
  now rewrite IH.
Qed.

(** X7. On the tree sink, a map scope whose name is new in the current
    [dict] and whose body sets leaves with pairwise distinct names ends
    normally, adds one entry under that name to the current [dict], stores
    a new [dict] with exactly those leaves in order, changes no other
    container, and makes the enclosing container current again. *)
Theorem map_scope_builds_dict
    (n : name) (leaves : list (name * value)) (w : World DataViewer.t)
    (d : list (name * DataViewer.dval)) :
  let h := DataViewer.heap (view w) in
  let c := DataViewer.cur (view w) in
  h !! c = Some (DataViewer.ODict d) ->
  ~ In n (map fst d) ->
  NoDup (map fst leaves) ->
  exists w',
    Viewer_map (ops := DataViewer.ops) n (fun w0 => lift_unit (set_leaves (ops := DataViewer.ops) leaves w0)) w
    = Some (Normal VNone, w')
    /\ dec w' = dec w
    /\ DataViewer.cur (view w') = c
    /\ DataViewer.stack (view w') = DataViewer.stack (view w)
    /\ length (DataViewer.heap (view w')) = S (length h)
    /\ DataViewer.heap (view w') !! c
       = Some (DataViewer.ODict (d ++ [(n, DataViewer.DRef (length h))]))
    /\ DataViewer.heap (view w') !! length h
       = Some (DataViewer.ODict (map (fun kv => (fst kv, DataViewer.DVal (snd kv))) leaves))
    /\ (forall a, a <> c -> (a < length h)%nat ->
                  DataViewer.heap (view w') !! a = h !! a).
Proof.
  intros h c Hcur Hfresh Hnd.
  assert (Hlt : (c < length h)%nat) by (eapply lookup_lt_Some, Hcur).
  unfold Viewer_map, scoped. cbn [v_enter_map DataViewer.ops].
  unfold DataViewer.enter_map, DataViewer.enter. fold h c.
  rewrite (set_dict_fresh _ d); [|cbn; now rewrite lookup_app_l|exact Hfresh].
  cbn [DataViewer.heap DataViewer.stack DataViewer.cur view dec].
  rewrite set_leaves_tree. cbn [view dec].
  set (h1 := <[c := DataViewer.ODict (d ++ [(n, DataViewer.DRef (length h))])]>
               (h ++ [DataViewer.ODict []])).
  assert (Hnew : h1 !! length h = Some (DataViewer.ODict [])).
  { unfold h1. rewrite list_lookup_insert_ne by lia.
    rewrite lookup_app_r by lia. now rewrite Nat.sub_diag. }
  rewrite (set_all_dict_state _ _ []); cbn; [|exact Hnew|].
  2: { rewrite map_map. simpl. exact Hnd. }
  eexists. split; [reflexivity|]. cbn.
  assert (Hlen1 : length h1 = S (length h)).
  { unfold h1. rewrite length_insert, length_app. simpl. lia. }
  repeat split.
  - now rewrite length_insert.
  - rewrite list_lookup_insert_ne by lia. unfold h1.
    apply list_lookup_insert_eq. rewrite length_app. simpl. lia.
  - apply list_lookup_insert_eq. lia.
  - intros a Hne Ha. rewrite list_lookup_insert_ne by lia. unfold h1.
    rewrite list_lookup_insert_ne by done. now rewrite lookup_app_l.
Qed.

Lemma map_scope_builds_dict_witness :
  let w := mkWorld (Decoder_init (open_file []) true) DataViewer.init in
  let leaves := [(NStr "x", VInt 1); (NInt 2, VStr "y")] in
  DataViewer.heap (view w) !! DataViewer.cur (view w) = Some (DataViewer.ODict [])
  /\ ~ In (NStr "m") (map fst (@nil (name * DataViewer.dval)))
  /\ NoDup (map fst leaves)
  /\ exists w',
      Viewer_map (ops := DataViewer.ops) (NStr "m")
                 (fun w0 => lift_unit (set_leaves (ops := DataViewer.ops) leaves w0)) w
      = Some (Normal VNone, w')
      /\ DataViewer.heap (view w') !! 0%nat
         = Some (DataViewer.ODict [(NStr "m", DataViewer.DRef 1)])
      /\ DataViewer.heap (view w') !! 1%nat
         = Some (DataViewer.ODict [(NStr "x", DataViewer.DVal (VInt 1));
                                   (NInt 2, DataViewer.DVal (VStr "y"))]).
Proof.
  intros w leaves.
  assert (Hnd : NoDup (map fst leaves)).
  { simpl. repeat constructor; rewrite ?list_elem_of_In; simpl; intuition discriminate. }
  split; [reflexivity|]. split; [simpl; tauto|]. split; [exact Hnd|].
  destruct (map_scope_builds_dict (NStr "m") leaves w [] eq_refl (fun H => H) Hnd)
    as (w' & Hrun & _ & _ & _ & _ & Hc & Hn & _).
  exists w'. split; [exact Hrun|]. split; [exact Hc | exact Hn].
Defined.

(** ** Composing runs *)

Section BigStep.
Context {V : Type} {ops : ViewerOps V}.
Variable cls : class.

Lemma runs_to_step (fuel : nat) (p : prog) (w w' : World V) (o : Outcome) :
  run cls fuel p w = Some (o, w') -> runs_to cls p w o w'.
Proof. intros Hrun. now exists fuel. Qed.

Lemma runs_to_Bind (p : prog) (k : value -> prog) (w w1 w2 : World V) v o :
  runs_to cls p w (Normal v) w1 -> runs_to cls (k v) w1 o w2 ->
  runs_to cls (Bind p k) w o w2.
Proof.
  intros [f1 H1] [f2 H2]. exists (S (f1 `max` f2)). simpl.
  rewrite (run_mono cls f1 (f1 `max` f2) _ _ _ ltac:(lia) H1).
  apply (run_mono cls f2); [lia | exact H2].
Qed.

Lemma runs_to_Bind_raised (p : prog) (k : value -> prog) (w w1 : World V) e :
  runs_to cls p w (Raised e) w1 -> runs_to cls (Bind p k) w (Raised e) w1.
Proof. intros [f1 H1]. exists (S f1). simpl. now rewrite H1. Qed.

Lemma runs_to_Bind_returned (p : prog) (k : value -> prog) (w w1 : World V) v :
  runs_to cls p w (Returned v) w1 -> runs_to cls (Bind p k) w (Returned v) w1.
Proof. intros [f1 H1]. exists (S f1). simpl. now rewrite H1. Qed.

Lemma runs_to_Call (f : string) (args : list value) (m : list value -> prog)
    (w w1 : World V) o :
  cls f = Some m -> runs_to cls (m args) w o w1 ->
  runs_to cls (Call f args) w (call_outcome o) w1.
Proof.
  intros Hm [f1 H1]. exists (S f1). simpl. rewrite Hm, H1. now destruct o.
Qed.

Lemma runs_to_Try_normal (body handler : prog) (catches : exn -> bool)
    (w w1 : World V) v :
  runs_to cls body w (Normal v) w1 ->
  runs_to cls (Try body catches handler) w (Normal v) w1.
Proof. intros [f1 H1]. exists (S f1). simpl. now rewrite H1. Qed.

Lemma runs_to_Try_caught (body handler : prog) (catches : exn -> bool)
    (w w1 w2 : World V) e o :
  runs_to cls body w (Raised e) w1 -> catches e = true ->
  runs_to cls handler w1 o w2 ->
  runs_to cls (Try body catches handler) w o w2.
Proof.
  intros [f1 H1] Hc [f2 H2]. exists (S (f1 `max` f2)). simpl.
  rewrite (run_mono cls f1 (f1 `max` f2) _ _ _ ltac:(lia) H1), Hc.
  apply (run_mono cls f2); [lia | exact H2].
Qed.

Lemma runs_to_While_done (cond body : prog) (w w1 : World V) c :
  runs_to cls cond w (Normal c) w1 -> truthy c = false ->
  runs_to cls (While cond body) w (Normal VNone) w1.
Proof. intros [f1 H1] Hc. exists (S f1). simpl. now rewrite H1, Hc. Qed.

Lemma runs_to_While_again (cond body : prog) (w w1 w2 w3 : World V) c v o :
  runs_to cls cond w (Normal c) w1 -> truthy c = true ->
  runs_to cls body w1 (Normal v) w2 ->
  runs_to cls (While cond body) w2 o w3 ->
  runs_to cls (While cond body) w o w3.
Proof.
  intros [f1 H1] Hc [f2 H2] [f3 H3]. exists (S (Nat.max (Nat.max f1 f2) f3)). simpl.
  rewrite (run_mono cls f1 (Nat.max (Nat.max f1 f2) f3) _ _ _ ltac:(lia) H1), Hc.
  rewrite (run_mono cls f2 (Nat.max (Nat.max f1 f2) f3) _ _ _ ltac:(lia) H2).
  apply (run_mono cls f3); [lia | exact H3].
Qed.

Lemma runs_to_While_raised (cond body : prog) (w w1 : World V) e :
  runs_to cls cond w (Raised e) w1 ->
  runs_to cls (While cond body) w (Raised e) w1.
Proof. intros [f1 H1]. exists (S f1). simpl. now rewrite H1. Qed.

Lemma runs_to_With (s : scope) (body : prog) (w w' : World V) o :
  (exists fuel, with_scope s (run cls fuel body) w = Some (o, w')) ->
  runs_to cls (With s body) w o w'.
Proof. intros [f1 H1]. now exists (S f1). Qed.

Lemma runs_to_deterministic (p : prog) (w w1 w2 : World V) o1 o2 :
  runs_to cls p w o1 w1 -> runs_to cls p w o2 w2 -> o1 = o2 /\ w1 = w2.
Proof.
  intros [f1 H1] [f2 H2].
  pose proof (run_deterministic cls f1 f2 p w _ _ H1 H2) as [= -> ->]. auto.
Qed.

End BigStep.

(** ** One record of the QuickTime driver *)

Lemma available_stream_take (n : nat) (s : Stream) :
  available (stream_take (take n (remaining s)) s) = Z.max 0 (available s - Z.of_nat n).
Proof.
  unfold available. rewrite remaining_stream_take_prefix, length_drop. lia.
Qed.

Lemma stream_take_offset (n : Z) (s : Stream) :
  0 <= n <= available s ->
  Z.of_nat (offset (stream_take (take (Z.to_nat n) (remaining s)) s))
  = Z.of_nat (offset s) + n
  /\ content (stream_take (take (Z.to_nat n) (remaining s)) s) = content s.
Proof.
  intros Hn. unfold stream_take, available in *. cbn. rewrite length_take.
  split; [lia | reflexivity].
Qed.

Section Atom.
Context {V : Type} {ops : ViewerOps V}.

(** A sub-reader that has ended, with any outcome, over a body that keeps
    the stack of suspended cursors: the parent is active again, [L] bytes
    further. *)
Lemma substream_returns_parent (L : Z) (body : M V) (w w' : World V) (o : Outcome) :
  0 <= L -> L <= available (stream (dec w)) ->
  (forall w0 o0 w1, body w0 = Some (o0, w1) -> same_frame (dec w0) (dec w1)) ->
  substream L body w = Some (o, w') ->
  let data := take (Z.to_nat L) (remaining (stream (dec w))) in
  dec w' = mkDecoder (stream_take data (stream (dec w))) (pos (dec w) + L)
                     (end_ (dec w)) (stream_stack (dec w))
  /\ exists w_in,
      body (mkWorld (substream_enter data
                       (mkDecoder (stream_take data (stream (dec w))) (pos (dec w) + L)
                                  (end_ (dec w)) (stream_stack (dec w))))
                    (view w)) = Some (o, w_in)
      /\ view w' = view w_in.
Proof.
  intros HL Hle Hbody. unfold substream.
  destruct (read_Some_enough L (dec w) HL Hle) as [-> _].
  destruct (body _) as [[o1 w1]|] eqn:Hb; [|done].
  pose proof (Hbody _ _ _ Hb) as [Hst He]. cbn in Hst, He.
  unfold substream_exit. rewrite Hst. intros [= <- <-]. cbn.
  split; [now rewrite He|]. eauto.
Qed.

Variable iter_lines : list byte -> list string.
Variable layout : class.

Let cls := QtDecoder.methods iter_lines layout.

Lemma atom_advance (fuel : nat) (w w' : World V) (o : Outcome) (size : Z) :
  size = unsigned (end_ (dec w)) (take 4 (remaining (stream (dec w)))) ->
  8 <= size <= available (stream (dec w)) ->
  run cls fuel QtDecoder.atom w = Some (o, w') ->
  pos (dec w') = pos (dec w) + size
  /\ Z.of_nat (offset (stream (dec w'))) = Z.of_nat (offset (stream (dec w))) + size
  /\ content (stream (dec w')) = content (stream (dec w))
  /\ stream_stack (dec w') = stream_stack (dec w).
Proof.
  intros Hsize Hrange Hrun.
  destruct fuel as [|f1]; [discriminate|].
  unfold QtDecoder.atom in Hrun. cbn [run] in Hrun.
  destruct f1 as [|f2]; [discriminate|]. cbn [run] in Hrun.
  destruct f2 as [|f3]; [discriminate|]. unfold QtDecoder.U4 in Hrun. cbn [run] in Hrun.
  rewrite u4_returns in Hrun by lia. cbn [lift id] in Hrun.
  rewrite <- Hsize in Hrun. cbn [int_of] in Hrun.
  destruct (Z.eqb_spec size 0) as [|_]; [lia|].
  change (cls "s4") with (Some (fun _ : list value => QtDecoder.s4)) in Hrun.
  destruct f3 as [|f4]; [discriminate|]. unfold QtDecoder.s4 in Hrun. cbn [run] in Hrun.
  destruct f4 as [|f5]; [discriminate|]. cbn [run dec view] in Hrun.
  set (s1 := stream_take (take 4 (remaining (stream (dec w)))) (stream (dec w))) in *.
  assert (Hav1 : available s1 = available (stream (dec w)) - 4).
  { unfold s1. rewrite available_stream_take. lia. }
  destruct (read_Some_enough 4 (mkDecoder s1 (pos (dec w) + 4) (end_ (dec w))
                                   (stream_stack (dec w)))) as [Hr4 Hl4];
    [lia | cbn; lia |].
  cbn [stream pos end_ stream_stack] in Hr4.
  rewrite Hr4 in Hrun. cbn [lift] in Hrun.
  set (s2 := stream_take (take (Z.to_nat 4) (remaining s1)) s1) in *.
  assert (Hav2 : available s2 = available (stream (dec w)) - 8).
  { unfold s2. rewrite available_stream_take. lia. }
  cbn [run with_scope] in Hrun.
  destruct (substream (size - 8) _ _) as [[o1 w1]|] eqn:Hsub; [|discriminate].
  apply substream_returns_parent in Hsub as (Hdec & _); cbn [dec stream]; [|lia|lia|].
  2: { intros w0 o0 w2 Hb. eapply (with_scope_frame (ViewMap _)); [|exact Hb].
       intros w3 o3 w4. apply run_frame. }
  cbn [dec stream pos end_ stream_stack] in Hdec.
  assert (Hw : dec w' = dec w1).
  { destruct o1; cbn [run] in Hrun; now injection Hrun as _ <-. }
  rewrite Hw, Hdec. cbn [pos stream stream_stack].
  destruct (stream_take_offset (size - 8) s2) as [O3 C3]; [lia|].
  destruct (stream_take_offset 4 s1) as [O2 C2]; [lia|].
  destruct (stream_take_offset 4 (stream (dec w))) as [O1 C1]; [lia|].
  change (Z.to_nat 4) with 4%nat in *.
  fold s1 in O1, C1. fold s2 in O2, C2.
  rewrite O3, C3, O2, C2, O1, C1. repeat split; lia.
Qed.

End Atom.

(** X8. A record whose length field [size] is at least 8 and no more than
    the bytes left moves the enclosing cursor by exactly [size] bytes,
    whatever the handler of its type does and however [atom] ends: with
    [True], or with an exception raised by the handler or the sink. *)
Theorem atom_consumes_declared_size {V : Type} {ops : ViewerOps V}
    (iter_lines : list byte -> list string) (layout : class)
    (fuel : nat) (w w' : World V) (o : Outcome) :
  let size := unsigned (end_ (dec w)) (take 4 (remaining (stream (dec w)))) in
  8 <= size <= available (stream (dec w)) ->
  run (QtDecoder.methods iter_lines layout) fuel QtDecoder.atom w = Some (o, w') ->
  pos (dec w') = pos (dec w) + size
  /\ Z.of_nat (offset (stream (dec w'))) = Z.of_nat (offset (stream (dec w))) + size
  /\ content (stream (dec w')) = content (stream (dec w))
  /\ stream_stack (dec w') = stream_stack (dec w).
Proof.
  intros size Hrange. now apply atom_advance.
Qed.

Lemma atom_consumes_declared_size_witness :
  let cls := QtDecoder.methods (fun _ => []) (fun _ => None) in
  let input := [x00; x00; x00; x0c; x6d; x6f; x6f; x76; x00; x00; x00; x10; x01; x02] in
  let w := mkWorld (Decoder_init (open_file input) true) DataViewer.init in
  exists w',
    8 <= 12 <= available (stream (dec w))
    /\ run (ops := DataViewer.ops) cls 30 QtDecoder.atom w = Some (Raised EOFError, w')
    /\ pos (dec w') = pos (dec w) + 12
    /\ Z.of_nat (offset (stream (dec w'))) = Z.of_nat (offset (stream (dec w))) + 12.
Proof.
  intros cls input w.
  destruct (run (ops := DataViewer.ops) cls 30 QtDecoder.atom w) as [[o w']|] eqn:Hrun;
    [|vm_compute in Hrun; discriminate].
  assert (Hrange : 8 <= 12 <= available (stream (dec w))) by (vm_compute; split; discriminate).
  destruct (atom_consumes_declared_size (ops := DataViewer.ops)
              (fun _ => []) (fun _ => None) 30 w w' o Hrange Hrun) as (Hp & Ho & _).
  exists w'. split; [exact Hrange|].
  split; [vm_compute in Hrun; injection Hrun as <- <-; reflexivity|].
  split; [exact Hp | exact Ho].
Defined.

(** ** Records that end in an error, records of unknown type *)

Section WithSubstream.
Context {V : Type} {ops : ViewerOps V}.
Variable cls : class.

(** A sub-reader over a body that ends. *)
Lemma runs_to_With_substream (L : Z) (body : prog) (w w_in : World V) (o : Outcome) :
  0 <= L -> L <= available (stream (dec w)) ->
  let data := take (Z.to_nat L) (remaining (stream (dec w))) in
  let parent := mkDecoder (stream_take data (stream (dec w))) (pos (dec w) + L)
                          (end_ (dec w)) (stream_stack (dec w)) in
  runs_to cls body (mkWorld (substream_enter data parent) (view w)) o w_in ->
  runs_to cls (With (Substream L) body) w o (mkWorld parent (view w_in)).
Proof.
  intros HL Hle data parent [fuel Hbody].
  destruct (read_Some_enough L (dec w) HL Hle) as [Hread _].
  fold data in Hread. fold parent in Hread.
  exists (S fuel). simpl. unfold substream. rewrite Hread, Hbody.
  pose proof (run_frame cls fuel _ _ _ _ Hbody) as [Hstack Hend].
  simpl in Hstack, Hend. unfold substream_exit. rewrite Hstack. simpl.
  now rewrite Hend.
Qed.
End WithSubstream.

Section WithMapText.
Variable repr : value -> string.
Variable cls : class.

(** A map scope on the text sink over a body that ends. *)
Lemma runs_to_With_map_text (n : name) (body : prog) (w w_in : World PlainViewer.t) o :
  runs_to (ops := PlainViewer.ops repr) cls body
          (mkWorld (dec w) (PlainViewer.enter n (view w))) o w_in ->
  runs_to (ops := PlainViewer.ops repr) cls (With (ViewMap n) body) w o
          (mkWorld (dec w_in) (PlainViewer.exit (view w_in))).
Proof.
  intros [fuel Hbody]. exists (S fuel). simpl. unfold Viewer_map, scoped. simpl.
  unfold PlainViewer.enter_map. now rewrite Hbody.
Qed.
End WithMapText.

Section AtomRuns.
Context {V : Type} {ops : ViewerOps V}.
Variable iter_lines : list byte -> list string.
Variable layout : class.
Let cls := QtDecoder.methods iter_lines layout.

(** The header of a record: the length prefix, then the type. *)
Lemma atom_header (w : World V) (k : value -> value -> prog) :
  8 <= available (stream (dec w)) ->
  let rem := remaining (stream (dec w)) in
  let size := unsigned (end_ (dec w)) (take 4 rem) in
  let atype := decode_latin1 (take 4 (drop 4 rem)) in
  let d2 := mkDecoder (stream_take (take 8 rem) (stream (dec w))) (pos (dec w) + 8)
                      (end_ (dec w)) (stream_stack (dec w)) in
  runs_to cls (Try QtDecoder.U4 (fun e => exn_eqb e EOFError) (Return (VBool false))) w
          (Normal (VInt size))
          (mkWorld (mkDecoder (stream_take (take 4 rem) (stream (dec w)))
                              (pos (dec w) + 4) (end_ (dec w)) (stream_stack (dec w)))
                   (view w))
  /\ runs_to cls (Call "s4" [])
             (mkWorld (mkDecoder (stream_take (take 4 rem) (stream (dec w)))
                              (pos (dec w) + 4) (end_ (dec w)) (stream_stack (dec w)))
                   (view w))
             (Normal (VStr atype)) (mkWorld d2 (view w))
  /\ remaining (stream d2) = drop 8 rem.
Proof.
  intros Hav rem size atype d2. split; [|split].
  - apply runs_to_Try_normal. exists 1%nat. unfold QtDecoder.U4. simpl.
    rewrite u4_returns by lia. reflexivity.
  - set (d1 := mkDecoder (stream_take (take 4 rem) (stream (dec w)))
                         (pos (dec w) + 4) (end_ (dec w)) (stream_stack (dec w))).
    assert (Hrem1 : remaining (stream d1) = drop 4 rem).
    { apply remaining_stream_take_prefix. }
    assert (Hav1 : available (stream d1) = available (stream (dec w)) - 4).
    { unfold available. rewrite Hrem1, length_drop. unfold available, rem in *. lia. }
    destruct (read_Some_enough 4 d1) as [Hr4 _]; [lia|lia|].
    change (Z.to_nat 4) with 4%nat in Hr4. rewrite Hrem1 in Hr4.
    assert (Hd2 : mkDecoder (stream_take (take 4 (drop 4 rem)) (stream d1))
                            (pos d1 + 4) (end_ d1) (stream_stack d1) = d2).
    { unfold d2, d1, stream_take. cbn. f_equal; [|lia]. f_equal.
      - rewrite !length_take, length_drop. unfold rem, available in *. lia.
      - rewrite !length_take, length_drop. unfold rem, available in *. lia. }
    rewrite Hd2 in Hr4.
    apply (runs_to_Call cls "s4" [] (fun _ => QtDecoder.s4) _ _ (Returned (VStr atype)));
      [reflexivity|].
    exists 2%nat. unfold QtDecoder.s4. cbn [run dec view]. rewrite Hr4. reflexivity.
  - unfold d2. cbn [stream]. apply remaining_stream_take_prefix.
Qed.

(** A record longer than what is left of its region. *)
Lemma atom_truncated (w : World V) :
  let size := unsigned (end_ (dec w)) (take 4 (remaining (stream (dec w)))) in
  8 <= available (stream (dec w)) -> available (stream (dec w)) < size ->
  exists w',
    runs_to cls QtDecoder.atom w (Raised EOFError) w'
    /\ runs_to cls QtDecoder.atoms w (Raised EOFError) w'
    /\ view w' = view w
    /\ stream_stack (dec w') = stream_stack (dec w).
Proof.
  intros size Hav Hbig.
  destruct (atom_header w (fun _ _ => Ret VNone) Hav) as (H1 & H2 & Hrem2).
  fold size in H1.
  set (d2 := mkDecoder (stream_take (take 8 (remaining (stream (dec w)))) (stream (dec w)))
                       (pos (dec w) + 8) (end_ (dec w)) (stream_stack (dec w))) in *.
  assert (Hav2 : available (stream d2) = available (stream (dec w)) - 8).
  { unfold available. rewrite Hrem2, length_drop. unfold available in Hav. lia. }
  set (w' := mkWorld (snd (read (Some (size - 8)) d2)) (view w)).
  assert (Hatom : runs_to cls QtDecoder.atom w (Raised EOFError) w').
  { unfold QtDecoder.atom. eapply runs_to_Bind; [exact H1|]. cbn [int_of].
    destruct (Z.eqb_spec size 0) as [|_]; [lia|].
    eapply runs_to_Bind; [exact H2|].
    apply runs_to_Bind_raised. exists 1%nat. cbn [run with_scope].
    rewrite substream_short; [reflexivity | lia | cbn [dec]; lia]. }
  exists w'. split; [exact Hatom|]. split; [|split].
  - unfold QtDecoder.atoms. apply runs_to_While_raised.
    apply (runs_to_Call cls "atom" [] (fun _ => QtDecoder.atom) _ _ (Raised EOFError));
      [reflexivity | exact Hatom].
  - reflexivity.
  - unfold w'. cbn [dec]. now destruct (read_stack (Some (size - 8)) d2) as [-> _].
Qed.
End AtomRuns.

(** X9. A record whose header can be read but whose length field exceeds
    the bytes left in its region makes [atom], and with it the record loop
    [atoms], end with [EOFError] before any call to the sink: the sink is
    as it was, and so is the stack of suspended cursors. *)
Theorem truncated_record_raises {V : Type} {ops : ViewerOps V}
    (iter_lines : list byte -> list string) (layout : class) (w : World V) :
  let cls := QtDecoder.methods iter_lines layout in
  let size := unsigned (end_ (dec w)) (take 4 (remaining (stream (dec w)))) in
  8 <= available (stream (dec w)) -> available (stream (dec w)) < size ->
  exists w',
    runs_to cls QtDecoder.atom w (Raised EOFError) w'
    /\ runs_to cls QtDecoder.atoms w (Raised EOFError) w'
    /\ view w' = view w
    /\ stream_stack (dec w') = stream_stack (dec w).
Proof.
  intros cls size. apply atom_truncated.
Qed.

Lemma truncated_record_raises_witness :
  let cls := QtDecoder.methods (fun _ => []) (fun _ => None) in
  let input := [x00; x00; x00; x20; x66; x72; x65; x65; x01; x02] in
  let w := mkWorld (Decoder_init (open_file input) true) DataViewer.init in
  8 <= available (stream (dec w))
  /\ available (stream (dec w))
     < unsigned (end_ (dec w)) (take 4 (remaining (stream (dec w))))
  /\ exists w',
      runs_to (ops := DataViewer.ops) cls QtDecoder.atom w (Raised EOFError) w'
      /\ runs_to (ops := DataViewer.ops) cls QtDecoder.atoms w (Raised EOFError) w'
      /\ view w' = view w
      /\ stream_stack (dec w') = stream_stack (dec w).
Proof.
  intros cls input w.
  assert (H8 : 8 <= available (stream (dec w))) by (vm_compute; discriminate).
  assert (Hbig : available (stream (dec w))
                 < unsigned (end_ (dec w)) (take 4 (remaining (stream (dec w)))))
    by (vm_compute; reflexivity).
  split; [exact H8|]. split; [exact Hbig|].
  exact (truncated_record_raises (ops := DataViewer.ops) (fun _ => []) (fun _ => None) w
           H8 Hbig).
Defined.

Section CallHexdump.
Context {V : Type} {ops : ViewerOps V}.
Variable iter_lines : list byte -> list string.
Variable layout : class.
Let cls := QtDecoder.methods iter_lines layout.

(** A call of [hexdump] with the default cap. *)
Lemma runs_to_call_hexdump (data : list byte) (w : World V) :
  exists fuel,
    run cls fuel (Call "hexdump" [VBytes data]) w
    = lift_unit (set_leaves (hexdump_leaves iter_lines data 256) w).
Proof.
  exists (S (length (iter_lines (slice_to 256 data)) + 4)).
  change (run cls (S (length (iter_lines (slice_to 256 data)) + 4))
              (Call "hexdump" [VBytes data]) w)
    with (match run cls (length (iter_lines (slice_to 256 data)) + 4)
                    (QtDecoder.hexdump iter_lines data 256) w with
          | Some (Normal _, w1) => Some (Normal VNone, w1)
          | Some (Returned v, w1) => Some (Normal v, w1)
          | r => r
          end).
  unfold cls. rewrite run_hexdump.
  destruct (set_leaves _ w) as [[e|] w1]; reflexivity.
Qed.
End CallHexdump.

Section UnknownType.
Variable repr : value -> string.
Variable iter_lines : list byte -> list string.
Variable layout : class.
Let cls := QtDecoder.methods iter_lines layout.
Let rt := runs_to (ops := PlainViewer.ops repr) cls.

(** A record with no handler for its type, on the text sink. *)
Lemma atom_unknown (w : World PlainViewer.t) :
  let rem := remaining (stream (dec w)) in
  let size := unsigned (end_ (dec w)) (take 4 rem) in
  let atype := decode_latin1 (take 4 (drop 4 rem)) in
  let payload := take (Z.to_nat (size - 8)) (drop 8 rem) in
  let level := PlainViewer.level (view w) in
  8 <= size <= available (stream (dec w)) ->
  cls ("do_" ++ atype)%string = None ->
  exists w',
    rt QtDecoder.atom w (Returned (VBool true)) w'
    /\ view w' = PlainViewer.mk level
          (PlainViewer.out (view w)
           ++ [(PlainViewer.indent level ++ ("'" ++ atype ++ "'") ++ ":")%string]
           ++ map (render_leaf repr (level + 1))
                  ((NStr "_size", VInt size)
                   :: match payload with
                      | [] => []
                      | _ => hexdump_leaves iter_lines payload 256
                      end)).
Proof.
  intros rem size atype payload level Hrange Hunknown.
  destruct (atom_header (ops := PlainViewer.ops repr) iter_lines layout w
              (fun _ _ => Ret VNone)) as (H1 & H2 & Hrem2); [lia|].
  fold rem size atype in H1, H2, Hrem2. fold cls in H1, H2.
  set (d2 := mkDecoder (stream_take (take 8 rem) (stream (dec w)))
                       (pos (dec w) + 8) (end_ (dec w)) (stream_stack (dec w))) in *.
  assert (Hav2 : available (stream d2) = available (stream (dec w)) - 8).
  { unfold available. rewrite Hrem2, length_drop. unfold available, rem in *. lia. }
  set (w2 := mkWorld d2 (view w)) in *.
  set (parent := mkDecoder (stream_take (take (Z.to_nat (size - 8)) (remaining (stream d2)))
                                        (stream d2))
                           (pos d2 + (size - 8)) (end_ d2) (stream_stack d2)).
  set (v1 := PlainViewer.enter (NStr ("'" ++ atype ++ "'")) (view w)).
  set (v2 := PlainViewer.set repr (NStr "_size") (VInt size) v1).
  set (leaves := match payload with
                 | [] => []
                 | _ => hexdump_leaves iter_lines payload 256
                 end).
  set (w3 := mkWorld (substream_enter (take (Z.to_nat (size - 8)) (remaining (stream d2)))
                                      parent) v1).
  assert (Hpay : remaining (stream (dec w3)) = payload).
  { unfold w3, payload. cbn [dec substream_enter stream].
    unfold remaining at 1. cbn [BytesIO offset content]. rewrite drop_0.
    now rewrite Hrem2. }
  assert (Hbody : exists w4,
             rt (Bind (Call "putv" [VStr "_size"; VInt size]) (fun _ =>
                 Bind (HasAttr ("do_" ++ atype)) (fun method =>
                 Bind (if truthy method then Call ("do_" ++ atype) [] else Ret VNone)
                      (fun _ =>
                 Bind (Read None) (fun rest =>
                 if truthy rest then Call "hexdump" [rest] else Ret VNone)))))
                w3 (Normal VNone) w4
             /\ view w4 = PlainViewer.mk (PlainViewer.level v1)
                            (PlainViewer.out v2
                             ++ map (render_leaf repr (PlainViewer.level v1)) leaves)).
  { set (w3b := mkWorld (snd (read None (dec w3))) v2).
    assert (Hleaves : exists w4,
               rt (if truthy (VBytes (remaining (stream (dec w3))))
                   then Call "hexdump" [VBytes (remaining (stream (dec w3)))]
                   else Ret VNone) w3b (Normal VNone) w4
               /\ view w4 = PlainViewer.mk (PlainViewer.level v1)
                            (PlainViewer.out v2
                             ++ map (render_leaf repr (PlainViewer.level v1)) leaves)).
    { rewrite Hpay. unfold leaves. destruct payload as [|b payload'] eqn:Hp.
      - exists w3b. split; [exists 1%nat; reflexivity|]. cbn. now rewrite app_nil_r.
      - cbn [truthy].
        destruct (runs_to_call_hexdump (ops := PlainViewer.ops repr) iter_lines layout
                    (b :: payload') w3b) as [fuel Hrun].
        rewrite set_leaves_plain in Hrun. cbn [lift_unit] in Hrun.
        eexists. split; [exists fuel; exact Hrun|]. reflexivity. }
    destruct Hleaves as (w4 & Hrun4 & Hview4).
    exists w4. split; [|exact Hview4].
    eapply runs_to_Bind.
    { exists 2%nat. unfold cls. rewrite run_putv. reflexivity. }
    eapply runs_to_Bind.
    { exists 1%nat. cbn [run]. fold cls. rewrite Hunknown. reflexivity. }
    cbn [truthy].
    eapply runs_to_Bind; [exists 1%nat; reflexivity|].
    eapply runs_to_Bind.
    { exists 1%nat. cbn [run]. rewrite read_None. reflexivity. }
    exact Hrun4. }
  destruct Hbody as (w4 & Hrun4 & Hview4).
  eexists. split.
  - unfold QtDecoder.atom. eapply runs_to_Bind; [exact H1|]. cbn [int_of].
    destruct (Z.eqb_spec size 0) as [|_]; [lia|].
    eapply runs_to_Bind; [exact H2|]. cbn [str_of].
    eapply runs_to_Bind; [|exists 1%nat; reflexivity].
    apply (runs_to_With_substream (ops := PlainViewer.ops repr)); [lia|unfold w2; cbn [dec]; lia|].
    apply runs_to_With_map_text. exact Hrun4.
  - cbn [view]. rewrite Hview4. unfold PlainViewer.exit. cbn.
    f_equal; [fold level; lia|].
    rewrite <- !app_assoc. reflexivity.
Qed.
End UnknownType.

(** X10. On the text sink, a record whose length field [size] is at least 8
    and no more than the bytes left, and for whose type the driver has no
    [do_] method, makes [atom] return [True] after printing the quoted type
    as a heading, then one level deeper [_size] and, when the record has a
    payload, the leaves of the hex dump of its payload; the indent level is
    back, the cursor is [size] bytes further, and the record loop goes on
    from there. *)
Theorem unknown_record_is_dumped
    (repr : value -> string) (iter_lines : list byte -> list string) (layout : class)
    (w : World PlainViewer.t) :
  let cls := QtDecoder.methods iter_lines layout in
  let rem := remaining (stream (dec w)) in
  let size := unsigned (end_ (dec w)) (take 4 rem) in
  let atype := decode_latin1 (take 4 (drop 4 rem)) in
  let payload := take (Z.to_nat (size - 8)) (drop 8 rem) in
  let level := PlainViewer.level (view w) in
  8 <= size <= available (stream (dec w)) ->
  cls ("do_" ++ atype)%string = None ->
  exists w',
    runs_to (ops := PlainViewer.ops repr) cls QtDecoder.atom w (Returned (VBool true)) w'
    /\ view w' = PlainViewer.mk level
          (PlainViewer.out (view w)
           ++ [(PlainViewer.indent level ++ ("'" ++ atype ++ "'") ++ ":")%string]
           ++ map (render_leaf repr (level + 1))
                  ((NStr "_size", VInt size)
                   :: match payload with
                      | [] => []
                      | _ => hexdump_leaves iter_lines payload 256
                      end))
    /\ pos (dec w') = pos (dec w) + size
    /\ remaining (stream (dec w')) = drop (Z.to_nat size) rem
    /\ (forall o w'',
           runs_to (ops := PlainViewer.ops repr) cls QtDecoder.atoms w' o w'' ->
           runs_to (ops := PlainViewer.ops repr) cls QtDecoder.atoms w o w'').
Proof.
  intros cls rem size atype payload level Hrange Hunknown.
  destruct (atom_unknown repr iter_lines layout w Hrange Hunknown) as (w' & Hrun & Hview).
  exists w'. split; [exact Hrun|]. split; [exact Hview|].
  pose proof Hrun as [fuel Hfuel].
  destruct (atom_advance iter_lines layout fuel w w' _ size eq_refl Hrange Hfuel)
    as (Hpos & Hoff & Hcont & _).
  split; [exact Hpos|]. split.
  - unfold remaining, rem, remaining. rewrite Hcont, drop_drop. f_equal. lia.
  - intros o w'' Hrest. unfold QtDecoder.atoms in *.
    eapply (runs_to_While_again cls); [| |exists 1%nat; reflexivity|exact Hrest].
    + apply (runs_to_Call cls "atom" [] (fun _ => QtDecoder.atom) _ _
               (Returned (VBool true))); [reflexivity | exact Hrun].
    + reflexivity.
Qed.

Lemma unknown_record_is_dumped_witness :
  let repr : value -> string := fun _ => "?"%string in
  let iter_lines : list byte -> list string := fun _ => ["00000000: 01 02"%string] in
  let cls := QtDecoder.methods iter_lines (fun _ => None) in
  let input := [x00; x00; x00; x0a; x66; x72; x65; x65; x01; x02; x09] in
  let w := mkWorld (Decoder_init (open_file input) true) PlainViewer.init in
  8 <= unsigned (end_ (dec w)) (take 4 (remaining (stream (dec w))))
    <= available (stream (dec w))
  /\ exists w',
      runs_to (ops := PlainViewer.ops repr) cls QtDecoder.atom w (Returned (VBool true)) w'
      /\ view w' = PlainViewer.mk 0
                     ["'free':"%string; "  _size = ?"%string; "  0000000 = ?"%string]
      /\ pos (dec w') = 10
      /\ remaining (stream (dec w')) = [x09].
Proof.
  intros repr iter_lines cls input w.
  assert (Hrange : 8 <= unsigned (end_ (dec w)) (take 4 (remaining (stream (dec w))))
                   <= available (stream (dec w))) by (vm_compute; split; discriminate).
  split; [exact Hrange|].
  destruct (unknown_record_is_dumped repr iter_lines (fun _ => None) w Hrange eq_refl)
    as (w' & Hrun & Hview & Hpos & Hrem & _).
  exists w'. split; [exact Hrun|]. split; [exact Hview|]. split; [exact Hpos|exact Hrem].
Defined.

(** ** The 24-bit reader of the Flash Video driver *)

Lemma lor_shiftl_16 (hi lo : Z) :
  0 <= lo < 2 ^ 16 -> Z.lor (Z.shiftl hi 16) lo = hi * 65536 + lo.
Proof.
  intros Hlo. rewrite Z.shiftl_mul_pow2 by lia.
  pose proof (Z.add_lor_land (hi * 2 ^ 16) lo) as Hadd.
  assert (Hland : Z.land (hi * 2 ^ 16) lo = 0).
  { apply Z.bits_inj'. intros n Hn. rewrite Z.land_spec, Z.bits_0.
    destruct (Z.lt_ge_cases n 16) as [Hlow|Hhigh].
    - now rewrite Z.mul_pow2_bits_low.
    - rewrite <- (Z.mod_small lo (2 ^ 16)) by lia.
      rewrite Z.mod_pow2_bits_high by lia. apply andb_false_r. }
  change (2 ^ 16) with 65536 in *. lia.
Qed.

Section UI24.
Context {V : Type} {ops : ViewerOps V}.
Variable cls : class.

Lemma scalar_unsigned_returns (size : Z) (c : desc) (w : World V) :
  size = Z.of_nat (calcsize c) ->
  match c with FB | FH | FI | FQ => True | _ => False end ->
  size <= available (stream (dec w)) ->
  scalar None size c w
  = (inr (VInt (unsigned (end_ (dec w))
                         (take (calcsize c) (remaining (stream (dec w)))))),
     mkWorld (mkDecoder (stream_take (take (calcsize c) (remaining (stream (dec w))))
                                     (stream (dec w)))
                        (pos (dec w) + size) (end_ (dec w)) (stream_stack (dec w)))
             (view w)).
Proof.
  intros Hc Hu Hle. unfold scalar.
  destruct (read_Some_enough size (dec w)) as [-> Hlen]; [lia|done|].
  replace (Z.to_nat size) with (calcsize c) in * by lia.
  unfold struct_unpack. cbn [end_].
  assert (length (take (calcsize c) (remaining (stream (dec w)))) = calcsize c) as -> by lia.
  rewrite Nat.eqb_refl. destruct c; try done.
Qed.

Lemma ui24_big_endian (w : World V) :
  end_ (dec w) = BigEndian ->
  3 <= available (stream (dec w)) ->
  let v := unsigned BigEndian (take 3 (remaining (stream (dec w)))) in
  runs_to cls FLVDecoder.ui24 w (Returned (VInt v))
          (mkWorld (mkDecoder (stream_take (take 3 (remaining (stream (dec w))))
                                           (stream (dec w)))
                              (pos (dec w) + 3) (end_ (dec w)) (stream_stack (dec w)))
                   (view w))
  /\ 0 <= v < 2 ^ 24.
Proof.
  intros Hend Hav v. split.
  2: { unfold v. pose proof (unsigned_range BigEndian (take 3 (remaining (stream (dec w))))) as Hr.
       rewrite length_take in Hr. unfold available in Hav.
       replace (3 `min` length (remaining (stream (dec w))))%nat with 3%nat in Hr by lia.
       exact Hr. }
  destruct (remaining (stream (dec w))) as [|b0 [|b1 [|b2 rest]]] eqn:Hrem;
    try (unfold available in Hav; rewrite Hrem in Hav; simpl in Hav; lia).
  set (w1 := mkWorld (mkDecoder (stream_take [b0] (stream (dec w))) (pos (dec w) + 1)
                                (end_ (dec w)) (stream_stack (dec w))) (view w)).
  assert (H1 : scalar None 1 FB w = (inr (VInt (unsigned (end_ (dec w)) [b0])), w1)).
  { rewrite (scalar_unsigned_returns 1 FB w eq_refl I) by lia.
    cbn [calcsize]. rewrite Hrem. reflexivity. }
  assert (Hrem1 : remaining (stream (dec w1)) = b1 :: b2 :: rest).
  { unfold w1. cbn [dec stream].
    change [b0] with (take 1 (b0 :: b1 :: b2 :: rest)). rewrite <- Hrem.
    rewrite remaining_stream_take_prefix, Hrem. reflexivity. }
  assert (H2 : scalar None 2 FH w1
               = (inr (VInt (unsigned (end_ (dec w1)) [b1; b2])),
                  mkWorld (mkDecoder (stream_take [b1; b2] (stream (dec w1)))
                                     (pos (dec w1) + 2) (end_ (dec w1))
                                     (stream_stack (dec w1))) (view w1))).
  { rewrite (scalar_unsigned_returns 2 FH w1 eq_refl I).
    - cbn [calcsize]. rewrite Hrem1. reflexivity.
    - unfold available. rewrite Hrem1. simpl. lia. }
  exists 3%nat. unfold FLVDecoder.ui24. cbn [run]. rewrite H1. cbn [lift id].
  rewrite H2. cbn [lift id int_of].
  f_equal. f_equal.
  - f_equal. unfold w1. cbn [dec end_]. rewrite Hend.
    unfold v. change (take 3 (b0 :: b1 :: b2 :: rest)) with [b0; b1; b2].
    cbn [unsigned rev app le_unsigned].
    pose proof (Byte.to_N_bounded b1). pose proof (Byte.to_N_bounded b2).
    rewrite lor_shiftl_16 by (change (2 ^ 16) with 65536; lia). f_equal. lia.
  - unfold w1, stream_take. cbn. rewrite take_0. cbn [length].
    f_equal. f_equal; [|lia]. f_equal; lia.
Qed.

Lemma ui24_short (w : World V) :
  available (stream (dec w)) < 3 ->
  exists w', runs_to cls FLVDecoder.ui24 w (Raised EOFError) w' /\ view w' = view w.
Proof.
  intros Hav. destruct (Z.lt_ge_cases (available (stream (dec w))) 1) as [H0|H1].
  - eexists. split.
    + exists 2%nat. unfold FLVDecoder.ui24. cbn [run].
      rewrite (scalar_raises_short 1 FB w) by lia. reflexivity.
    + reflexivity.
  - set (w1 := mkWorld (mkDecoder (stream_take (take 1 (remaining (stream (dec w))))
                                               (stream (dec w)))
                                  (pos (dec w) + 1) (end_ (dec w)) (stream_stack (dec w)))
                       (view w)).
    assert (Hav1 : available (stream (dec w1)) < 2).
    { unfold w1. cbn [dec stream]. rewrite available_stream_take. lia. }
    eexists. split.
    + exists 3%nat. unfold FLVDecoder.ui24. cbn [run].
      rewrite (scalar_unsigned_returns 1 FB w eq_refl I) by lia. cbn [lift id].
      fold w1. rewrite (scalar_raises_short 2 FH w1) by lia. reflexivity.
    + reflexivity.
Qed.

End UI24.

(** X11. With the big-endian byte order the Flash Video driver sets,
    [ui24()] returns the unsigned integer spelled by the next three bytes,
    most significant first, a value below [2^24], and advances the cursor
    by three bytes; when fewer than three bytes are left it raises
    [EOFError]. The sink is not touched. *)
Theorem ui24_reads_three_bytes {V : Type} {ops : ViewerOps V} (cls : class) (w : World V) :
  end_ (dec w) = BigEndian ->
  (3 <= available (stream (dec w)) ->
   exists w',
     runs_to cls FLVDecoder.ui24 w
             (Returned (VInt (unsigned BigEndian (take 3 (remaining (stream (dec w))))))) w'
     /\ 0 <= unsigned BigEndian (take 3 (remaining (stream (dec w)))) < 2 ^ 24
     /\ pos (dec w') = pos (dec w) + 3
     /\ remaining (stream (dec w')) = drop 3 (remaining (stream (dec w)))
     /\ view w' = view w)
  /\ (available (stream (dec w)) < 3 ->
      exists w', runs_to cls FLVDecoder.ui24 w (Raised EOFError) w' /\ view w' = view w).
Proof.
  intros Hend. split.
  - intros Hav. destruct (ui24_big_endian cls w Hend Hav) as [Hrun Hrange].
    eexists. split; [exact Hrun|]. split; [exact Hrange|].
    cbn [dec pos stream view]. repeat split.
    apply remaining_stream_take_prefix.
  - apply ui24_short.
Qed.

Lemma ui24_reads_three_bytes_witness :
  let cls : class := fun _ => None in
  let w := mkWorld (Decoder_init (open_file [x01; x02; x03; x04]) true) DataViewer.init in
  end_ (dec w) = BigEndian
  /\ 3 <= available (stream (dec w))
  /\ exists w',
      runs_to (ops := DataViewer.ops) cls FLVDecoder.ui24 w (Returned (VInt 66051)) w'
      /\ pos (dec w') = pos (dec w) + 3
      /\ remaining (stream (dec w')) = [x04].
Proof.
  intros cls w.
  assert (Hav : 3 <= available (stream (dec w))) by (vm_compute; discriminate).
  split; [reflexivity|]. split; [exact Hav|].
  destruct (ui24_reads_three_bytes (ops := DataViewer.ops) cls w eq_refl)
    as [Hok _].
  destruct (Hok Hav) as (w' & Hrun & _ & Hpos & Hrem & _).
  exists w'. split; [exact Hrun|]. split; [exact Hpos|exact Hrem].
Defined.

(** ** The record loop ends on every input *)

(** A read that returns hands out bytes of the source: what is left shrinks
    by what was returned, and a sized read returns at least its size. *)
Lemma read_returns (size : option Z) (d d' : Decoder) (data : list byte) :
  read size d = (inr data, d') ->
  (length (remaining (stream d')) + length data = length (remaining (stream d)))%nat
  /\ (forall n, size = Some n -> n <= Z.of_nat (length data))
  /\ stream_stack d' = stream_stack d.
Proof.
  intros Hread.
  assert (Hst : stream_stack d' = stream_stack d).
  { pose proof (read_stack size d) as [Hs _]. now rewrite Hread in Hs. }
  unfold read in Hread.
  destruct (stream_read size (stream d)) as [[e|got] s'] eqn:Hs; [discriminate|].
  assert (Hgot : exists k, got = take k (remaining (stream d))).
  { unfold stream_read in Hs. destruct size as [n|].
    - destruct (n <? 0).
      + destruct (kind (stream d)); [destruct (n <? -1); [discriminate|]|];
          injection Hs as <- _; exists (length (remaining (stream d))); now rewrite take_ge.
      + injection Hs as <- _. eauto.
    - injection Hs as <- _. exists (length (remaining (stream d))). now rewrite take_ge. }
  apply stream_read_returns in Hs as ->.
  destruct Hgot as [k ->].
  destruct (match size with None => false | Some n => _ end) eqn:Hshort; [discriminate|].
  injection Hread as <- <-. cbn [stream].
  rewrite remaining_stream_take_prefix, length_drop, length_take.
  split; [lia|]. split; [|exact Hst].
  intros n ->. apply Z.ltb_ge in Hshort. rewrite length_take in Hshort. lia.
Qed.

Section AtomProgress.
Context {V : Type} {ops : ViewerOps V}.
Variable iter_lines : list byte -> list string.
Variable layout : class.
Let cls := QtDecoder.methods iter_lines layout.

(** A record handler that returns true has taken at least the 8 header
    bytes from the source it was called on. *)
Lemma atom_true_consumes (fuel : nat) (w w1 : World V) (o : Outcome) (c : value) :
  run cls fuel QtDecoder.atom w = Some (o, w1) ->
  call_outcome o = Normal c -> truthy c = true ->
  (bytes_left w1 + 8 <= bytes_left w)%nat.
Proof.
  intros Hrun Hcall Htrue. unfold bytes_left.
  destruct fuel as [|f1]; [discriminate|].
  unfold QtDecoder.atom in Hrun. cbn [run] in Hrun.
  destruct f1 as [|f2]; [discriminate|]. cbn [run] in Hrun.
  destruct f2 as [|f3]; [discriminate|]. unfold QtDecoder.U4 in Hrun. cbn [run] in Hrun.
  destruct (scalar None 4 FI w) as [[e|v] wa] eqn:Hsc; cbn [lift id] in Hrun.
  { destruct (exn_eqb e EOFError); cbn [run] in Hrun; injection Hrun as <- <-;
      cbn in Hcall; [injection Hcall as <-|]; discriminate. }
  apply scalar_dec in Hsc as [data1 Hr1]. apply read_returns in Hr1 as (L1 & N1 & _).
  specialize (N1 4 eq_refl).
  destruct (int_of v =? 0).
  { cbn [run] in Hrun. injection Hrun as <- <-. cbn in Hcall. injection Hcall as <-.
    discriminate. }
  cbn [run] in Hrun.
  change (cls "s4") with (Some (fun _ : list value => QtDecoder.s4)) in Hrun.
  destruct f3 as [|f4]; [discriminate|]. unfold QtDecoder.s4 in Hrun. cbn [run] in Hrun.
  destruct f4 as [|f5]; [discriminate|]. cbn [run] in Hrun.
  destruct (read (Some 4) (dec wa)) as [[e|b4] d2] eqn:Hr2; cbn [lift] in Hrun.
  { injection Hrun as <- <-. discriminate. }
  apply read_returns in Hr2 as (L2 & N2 & _). specialize (N2 4 eq_refl).
  cbn [run with_scope] in Hrun. unfold substream in Hrun. cbn [dec view] in Hrun.
  destruct (read (Some (int_of v - 8)) d2) as [[e|data] d3] eqn:Hr3.
  { injection Hrun as <- <-. discriminate. }
  apply read_returns in Hr3 as (L3 & _ & _).
  match type of Hrun with
  | context [Viewer_map ?n ?b ?x] =>
      destruct (Viewer_map n b x) as [[o' w_in]|] eqn:Hb; [|discriminate]
  end.
  assert (Hfr : same_frame (dec (mkWorld (substream_enter data d3) (view wa))) (dec w_in)).
  { eapply (with_scope_frame (ViewMap _)); [|exact Hb].
    intros w3 o3 w4. apply run_frame. }
  destruct Hfr as [Hst _]. cbn in Hst.
  unfold substream_exit in Hrun. rewrite Hst in Hrun.
  assert (Hdec : stream (dec w1) = stream d3).
  { destruct o'; cbn [finally run] in Hrun; now injection Hrun as _ <-. }
  rewrite Hdec. lia.
Qed.
End AtomProgress.


Section Terminates.
Context {V : Type} {ops : ViewerOps V}.
Variable cls : class.

Lemma term_step (fuel : nat) (p : prog) (w : World V) r :
  run cls fuel p w = Some r -> terminates cls p w.
Proof. destruct r as [o w']. intros H. exists o, w', fuel. exact H. Qed.

Lemma term_Bind (p : prog) (k : value -> prog) (w : World V) :
  terminates cls p w ->
  (forall v w1, runs_to cls p w (Normal v) w1 -> terminates cls (k v) w1) ->
  terminates cls (Bind p k) w.
Proof.
  intros (o & w1 & Hp) Hk. destruct o as [v|v|e].
  - destruct (Hk v w1 Hp) as (o2 & w2 & Hk2). exists o2, w2.
    eapply runs_to_Bind; eauto.
  - exists (Returned v), w1. now apply runs_to_Bind_returned.
  - exists (Raised e), w1. now apply runs_to_Bind_raised.
Qed.

Lemma term_Call (f : string) (args : list value) (w : World V) :
  (forall m, cls f = Some m -> terminates cls (m args) w) ->
  terminates cls (Call f args) w.
Proof.
  intros Hm. destruct (cls f) as [m|] eqn:Hf.
  - destruct (Hm m eq_refl) as (o & w1 & Hrun).
    exists (call_outcome o), w1. eapply runs_to_Call; eauto.
  - apply (term_step 1 _ _ (Raised AttributeError, w)). simpl. now rewrite Hf.
Qed.

Lemma term_With_map (n : name) (body : prog) (w : World V) :
  (forall v1, terminates cls body (mkWorld (dec w) v1)) ->
  terminates cls (With (ViewMap n) body) w.
Proof.
  intros Hbody. destruct (v_enter_map n (view w)) as [[e|] v1] eqn:He.
  - apply (term_step 1 _ _ (Raised e, mkWorld (dec w) v1)). simpl.
    unfold Viewer_map, scoped. now rewrite He.
  - destruct (Hbody v1) as (o & w1 & fuel & Hrun).
    destruct (v_exit (view w1)) as [e v2] eqn:Hx.
    apply (term_step (S fuel) _ _ (finally o e, mkWorld (dec w1) v2)). simpl.
    unfold Viewer_map, scoped. now rewrite He, Hrun, Hx.
Qed.

Lemma term_With_substream (L : Z) (body : prog) (w : World V) :
  (forall data d3, read (Some L) (dec w) = (inr data, d3) ->
                   terminates cls body (mkWorld (substream_enter data d3) (view w))) ->
  terminates cls (With (Substream L) body) w.
Proof.
  intros Hbody. destruct (read (Some L) (dec w)) as [[e|data] d3] eqn:Hr.
  - apply (term_step 1 _ _ (Raised e, mkWorld d3 (view w))). simpl.
    unfold substream. now rewrite Hr.
  - destruct (Hbody data d3 eq_refl) as (o & w1 & fuel & Hrun).
    destruct (substream_exit (dec w1)) as [e d4] eqn:Hx.
    apply (term_step (S fuel) _ _ (finally o e, mkWorld d4 (view w1))). simpl.
    unfold substream. now rewrite Hr, Hrun, Hx.
Qed.

End Terminates.

Section RecordTerminates.
Context {V : Type} {ops : ViewerOps V}.
Variable iter_lines : list byte -> list string.
Variable layout : class.
Let cls := QtDecoder.methods iter_lines layout.
Hypothesis layout_terminates :
  forall f m args (w : World V), layout f = Some m -> terminates cls (m args) w.

(** A method named [do_...] of the driver is the record loop, the
    single-record reader, or a field-layout method. *)
Lemma methods_do_cases (s : string) (m : list value -> prog) :
  cls ("do_" ++ s)%string = Some m ->
  m = (fun _ => QtDecoder.atoms) \/ m = (fun _ => QtDecoder.atom_data)
  \/ layout ("do_" ++ s)%string = Some m.
Proof.
  unfold cls, QtDecoder.methods.
  change (String.eqb ("do_" ++ s) "run") with false.
  change (String.eqb ("do_" ++ s) "atoms") with false.
  change (String.eqb ("do_" ++ s) "atom") with false.
  change (String.eqb ("do_" ++ s) "atom_data") with false.
  change (String.eqb ("do_" ++ s) "hexdump") with false.
  change (String.eqb ("do_" ++ s) "putv") with false.
  change (String.eqb ("do_" ++ s) "s4") with false.
  cbv iota.
  destruct (existsb _ _); [intros [= <-]; auto|].
  destruct (String.eqb _ "do_dinf"); [intros [= <-]; auto|].
  auto.
Qed.

Lemma term_call_hexdump (rest : value) (w : World V) :
  terminates cls (Call "hexdump" [rest]) w.
Proof.
  apply term_Call. intros m [= <-].
  destruct rest; try (apply (term_step cls 1 _ _ (Raised TypeError, w)); reflexivity).
  destruct (set_leaves (hexdump_leaves iter_lines data 256) w) as [[e|] w1] eqn:Hs.
  - apply (term_step cls _ _ _ (Raised e, w1)
             (eq_trans (run_hexdump iter_lines layout data 256 w) ltac:(now rewrite Hs))).
  - apply (term_step cls _ _ _ (Normal VNone, w1)
             (eq_trans (run_hexdump iter_lines layout data 256 w) ltac:(now rewrite Hs))).
Qed.

Lemma term_tail (w : World V) :
  terminates cls (Bind (Read None) (fun rest =>
                  if truthy rest then Call "hexdump" [rest] else Ret VNone)) w.
Proof.
  apply term_Bind.
  - eapply (term_step cls 1). cbn [run]. rewrite read_None. reflexivity.
  - intros v w1 _. destruct (truthy v).
    + apply term_call_hexdump.
    + eapply (term_step cls 1). reflexivity.
Qed.

Lemma term_putv (s : string) (v : value) (w : World V) (k : value -> prog) :
  (forall view', terminates cls (k VNone) (mkWorld (dec w) view')) ->
  terminates cls (Bind (Call "putv" [VStr s; v]) k) w.
Proof.
  intros Hk.
  pose proof (run_putv iter_lines layout 0 s v w) as Hrun. fold cls in Hrun.
  unfold vset in Hrun. destruct (v_set (NStr s) v (view w)) as [[e|] view'] eqn:Hv;
    cbn [lift_unit] in Hrun.
  - eapply (term_step cls 3). cbn [run]. cbn [run] in Hrun. now rewrite Hrun.
  - destruct (Hk view') as (o & w1 & Hrest).
    exists o, w1. eapply runs_to_Bind; [exists 2%nat; exact Hrun | exact Hrest].
Qed.

End RecordTerminates.

Lemma runs_to_run {V} {ops : ViewerOps V} (cls : class) (fuel : nat) (p : prog)
    (w w' : World V) o r :
  runs_to cls p w o w' -> run cls fuel p w = Some r -> r = (o, w').
Proof.
  intros [f1 H1] H2. symmetry. exact (run_deterministic cls f1 fuel p w _ _ H1 H2).
Qed.

Section RecordLoop.
Context {V : Type} {ops : ViewerOps V}.
Variable iter_lines : list byte -> list string.
Variable layout : class.
Let cls := QtDecoder.methods iter_lines layout.
Hypothesis layout_terminates :
  forall f m args (w : World V), layout f = Some m -> terminates cls (m args) w.

Lemma try_u4_terminates (w : World V) :
  terminates cls (Try QtDecoder.U4 (fun e => exn_eqb e EOFError) (Return (VBool false))) w.
Proof.
  destruct (scalar None 4 FI w) as [[e|v'] w'] eqn:Hsc.
  - destruct (exn_eqb e EOFError) eqn:Hc; eapply (term_step cls 2); cbn [run];
      unfold QtDecoder.U4; cbn [run]; rewrite Hsc; cbn [lift]; rewrite Hc; reflexivity.
  - eapply (term_step cls 2). cbn [run]. unfold QtDecoder.U4. cbn [run].
    rewrite Hsc. reflexivity.
Qed.

Lemma try_u4_result (w wa : World V) (v : value) :
  runs_to cls (Try QtDecoder.U4 (fun e => exn_eqb e EOFError) (Return (VBool false)))
          w (Normal v) wa ->
  (bytes_left wa + 4 <= bytes_left w)%nat.
Proof.
  intros Hrun.
  destruct (scalar None 4 FI w) as [[e|v'] w'] eqn:Hsc.
  - assert (Hr : exists o, run cls 2 (Try QtDecoder.U4 (fun e => exn_eqb e EOFError)
                                          (Return (VBool false))) w = Some (o, w')
                           /\ forall x, o <> Normal x).
    { cbn [run]. unfold QtDecoder.U4. cbn [run]. rewrite Hsc. cbn [lift].
      destruct (exn_eqb e EOFError); eexists; (split; [reflexivity|]); discriminate. }
    destruct Hr as (o & Hr & Hne).
    apply (runs_to_run cls _ _ _ _ _ _ Hrun) in Hr. injection Hr as Ho _.
    now destruct (Hne v).
  - assert (Hr : run cls 2 (Try QtDecoder.U4 (fun e => exn_eqb e EOFError)
                                (Return (VBool false))) w = Some (Normal v', w')).
    { cbn [run]. unfold QtDecoder.U4. cbn [run]. now rewrite Hsc. }
    apply (runs_to_run cls _ _ _ _ _ _ Hrun) in Hr. injection Hr as _ Hw. subst w'.
    apply scalar_dec in Hsc as [data Hread].
    apply read_returns in Hread as (L & N & _). specialize (N 4 eq_refl).
    unfold bytes_left. lia.
Qed.

Lemma call_s4_terminates (w : World V) : terminates cls (Call "s4" []) w.
Proof.
  destruct (read (Some 4) (dec w)) as [[e|b4] d2] eqn:Hread;
    eapply (term_step cls 3); cbn [run];
    change (cls "s4") with (Some (fun _ : list value => QtDecoder.s4));
    unfold QtDecoder.s4; cbn [run]; rewrite Hread; reflexivity.
Qed.

Lemma call_s4_result (w w2 : World V) (v : value) :
  runs_to cls (Call "s4" []) w (Normal v) w2 ->
  (bytes_left w2 + 4 <= bytes_left w)%nat.
Proof.
  intros Hrun.
  assert (Hr : run cls 3 (Call "s4" []) w
               = match read (Some 4) (dec w) with
                 | (inl e, d2) => Some (Raised e, mkWorld d2 (view w))
                 | (inr b4, d2) => Some (Normal (VStr (decode_latin1 b4)), mkWorld d2 (view w))
                 end).
  { cbn [run]. change (cls "s4") with (Some (fun _ : list value => QtDecoder.s4)).
    unfold QtDecoder.s4. cbn [run].
    destruct (read (Some 4) (dec w)) as [[e|b4] d2]; reflexivity. }
  destruct (read (Some 4) (dec w)) as [[e|b4] d2] eqn:Hread.
  - apply (runs_to_run cls _ _ _ _ _ _ Hrun) in Hr. discriminate.
  - apply (runs_to_run cls _ _ _ _ _ _ Hrun) in Hr. injection Hr as _ Hw. subst w2.
    apply read_returns in Hread as (L & N & _). specialize (N 4 eq_refl).
    unfold bytes_left. cbn [dec]. lia.
Qed.


(** One record, when the loop is known to end on every shorter source:
    the body of a record runs over a region cut from the source after the
    8 header bytes. *)
Lemma atom_terminates_below (n : nat) :
  (forall w' : World V, (bytes_left w' < n)%nat ->
     terminates cls QtDecoder.atom w' /\ terminates cls QtDecoder.atoms w') ->
  forall w : World V, (bytes_left w <= n)%nat -> terminates cls QtDecoder.atom w.
Proof.
  intros IH w Hn. unfold QtDecoder.atom.
  apply term_Bind; [apply try_u4_terminates|].
  intros size wa Hu4. apply try_u4_result in Hu4.
  destruct (int_of size =? 0); [eapply (term_step cls 1); reflexivity|].
  apply term_Bind; [apply call_s4_terminates|].
  intros atype w2 Hs4. apply call_s4_result in Hs4.
  apply term_Bind; [|intros; eapply (term_step cls 1); reflexivity].
  apply term_With_substream. intros data d3 Hread.
  apply read_returns in Hread as (L & _ & _).
  assert (Hdata : (length data < n)%nat) by (unfold bytes_left in *; lia).
  apply term_With_map. intros v1. cbn [dec].
  apply (term_putv iter_lines layout). intros view'. cbn [dec].
  apply term_Bind; [eapply (term_step cls 1); reflexivity|].
  intros method w3 Hattr.
  assert (Hw3 : w3 = mkWorld (substream_enter data d3) view').
  { pose proof (runs_to_run cls 1 _ _ _ _ _ Hattr eq_refl) as [= _ Hw]. now symmetry. }
  subst w3.
  apply term_Bind; [|intros; apply (term_tail iter_lines layout)].
  destruct (truthy method); [|eapply (term_step cls 1); reflexivity].
  apply term_Call. intros m Hm.
  assert (Hin : (bytes_left (mkWorld (substream_enter data d3) view') < n)%nat).
  { unfold bytes_left. cbn. now rewrite drop_0. }
  apply (methods_do_cases iter_lines layout) in Hm as [->|[->|Hl]].
  - now apply IH.
  - unfold QtDecoder.atom_data. apply term_Bind.
    + apply term_Call. intros m [= <-]. now apply IH.
    + intros _ w4 _. apply term_Bind.
      * eapply (term_step cls 1). cbn [run]. rewrite read_None. reflexivity.
      * intros rest w5 _. apply (term_call_hexdump iter_lines layout).
  - eapply layout_terminates; eassumption.
Qed.

(** The loop: a record that returned true left a shorter source. *)
Lemma atoms_terminates_below (n : nat) :
  (forall w' : World V, (bytes_left w' < n)%nat ->
     terminates cls QtDecoder.atom w' /\ terminates cls QtDecoder.atoms w') ->
  forall w : World V, (bytes_left w <= n)%nat -> terminates cls QtDecoder.atoms w.
Proof.
  intros IH w Hn.
  destruct (atom_terminates_below n IH w Hn) as (o & w1 & fuel & Hatom).
  assert (Hcall : runs_to cls (Call "atom" []) w (call_outcome o) w1).
  { apply (runs_to_Call cls "atom" [] (fun _ => QtDecoder.atom)); [reflexivity|].
    now exists fuel. }
  unfold QtDecoder.atoms.
  destruct (call_outcome o) as [c|c|e] eqn:Ho.
  - destruct (truthy c) eqn:Hc.
    + pose proof (atom_true_consumes iter_lines layout fuel w w1 o c Hatom Ho Hc) as Hless.
      destruct (IH w1 ltac:(lia)) as [_ (o2 & w2 & Hrest)].
      exists o2, w2. eapply runs_to_While_again; [exact Hcall | exact Hc | | exact Hrest].
      exists 1%nat. reflexivity.
    + exists (Normal VNone), w1. eapply runs_to_While_done; eauto.
  - destruct o; discriminate.
  - exists (Raised e), w1. now apply runs_to_While_raised.
Qed.

Lemma atom_atoms_terminate (n : nat) :
  forall w : World V, (bytes_left w <= n)%nat ->
    terminates cls QtDecoder.atom w /\ terminates cls QtDecoder.atoms w.
Proof.
  induction n as [n IH] using lt_wf_ind. intros w Hn.
  assert (IH' : forall w' : World V, (bytes_left w' < n)%nat ->
            terminates cls QtDecoder.atom w' /\ terminates cls QtDecoder.atoms w').
  { intros w' Hlt. apply (IH (bytes_left w')); [exact Hlt | lia]. }
  split; [now apply (atom_terminates_below n) | now apply (atoms_terminates_below n)].
Qed.

End RecordLoop.

(** X12. The QuickTime record loop ends on every input. If the field-layout
    methods end whenever they are called, then [atoms] ends from every
    state of the decoder and the sink, and a whole decode of any input, in
    either byte order and over any sink, returns: each record that lets the
    loop go on has taken at least its 8 header bytes from the source, and
    the records inside a record are read from a region shorter than the
    source it was cut from. *)
Theorem record_loop_terminates {V : Type} {ops : ViewerOps V}
    (iter_lines : list byte -> list string) (layout : class) :
  let cls := QtDecoder.methods iter_lines layout in
  (forall f m args (w : World V), layout f = Some m -> terminates cls (m args) w) ->
  (forall w : World V, terminates cls QtDecoder.atoms w)
  /\ (forall (input : list byte) (big_endian : bool) (sink : V),
        exists fuel o w', decode cls fuel input big_endian sink = Some (o, w')).
Proof.
  intros cls Hlayout.
  assert (Hatoms : forall w : World V, terminates cls QtDecoder.atoms w).
  { intros w.
    now destruct (atom_atoms_terminate iter_lines layout Hlayout (bytes_left w) w (le_n _)). }
  split; [exact Hatoms|].
  intros input big_endian sink.
  set (w := mkWorld (Decoder_init (open_file input) big_endian) sink).
  destruct (Hatoms w) as (o & w1 & Hrun).
  assert (Hcall : runs_to cls (Call "run" []) w (call_outcome (call_outcome o)) w1).
  { apply (runs_to_Call cls "run" [] (fun _ => QtDecoder.run)); [reflexivity|].
    apply (runs_to_Call cls "atoms" [] (fun _ => QtDecoder.atoms)); [reflexivity|].
    exact Hrun. }
  destruct Hcall as [fuel Hcall]. exists fuel, (call_outcome (call_outcome o)), w1.
  exact Hcall.
Qed.

Lemma record_loop_terminates_witness :
  let layout : class := fun _ => None in
  let cls := QtDecoder.methods (fun _ => []) layout in
  let input := [x00; x00; x00; x10; x6d; x6f; x6f; x76;
                x00; x00; x00; x08; x66; x72; x65; x65;
                x00; x00; x00; x20; x66; x72; x65; x65; x01] in
  (forall f m args (w : World DataViewer.t),
      layout f = Some m -> terminates (ops := DataViewer.ops) cls (m args) w)
  /\ exists fuel o w',
       decode (ops := DataViewer.ops) cls fuel input true DataViewer.init = Some (o, w').
Proof.
  intros layout cls input.
  assert (Hlayout : forall f m args (w : World DataViewer.t),
             layout f = Some m -> terminates (ops := DataViewer.ops) cls (m args) w)
    by (intros f m args w Hm; discriminate Hm).
  split; [exact Hlayout|].
  destruct (record_loop_terminates (ops := DataViewer.ops) (fun _ => []) layout Hlayout)
    as [_ Hdecode].
  exact (Hdecode input true DataViewer.init).
Defined.
